(** * afl-llvm-dict2file: the dictionary extraction pass

    A shallow embedding of [AFLdict2filePass::runOnModule]
    (instrumentation/afl-llvm-dict2file.so.cc).  The pass walks every call
    instruction of a module, recognises string comparison calls and the
    internal memcpy that initialises local arrays, resolves one operand to a
    constant byte string and appends it, quoted, to the dictionary file.

    The LLVM objects the pass queries are modelled by the answers LLVM gives
    to the queries the pass makes; everything the pass computes itself is
    translated statement by statement, with the source line numbers. *)

From Stdlib Require Import ZArith Lia List Bool Ascii String.
From stdpp Require Import base option list gmap strings.

Local Open Scope Z_scope.

(** ** Bytes, std::string and 64-bit unsigned arithmetic *)

(** A [std::string] is an explicit-length sequence of [char]; it may hold
    zero bytes. *)
Abbreviation bytes := (list ascii).

Definition NUL : ascii := Ascii.zero.

(** The double quote and the line feed. *)
Definition DQUOTE : ascii := ascii_of_N 34.
Definition LF : ascii := ascii_of_N 10.

(** A C string literal as the bytes before its terminator. *)
Definition lit (s : string) : bytes := list_ascii_of_string s.

(** [size_t] and [uint64_t] are 64 bits wide on the targets of the pass (the
    hooked intrinsic is the [i64] flavour of memcpy). *)
Definition wrap64 (z : Z) : Z := z mod 2 ^ 64.

(** [std::string::length] *)
Definition str_length (s : bytes) : Z := Z.of_nat (length s).

(** [std::string::npos] *)
Definition npos : Z := 2 ^ 64 - 1.

Fixpoint find_from (s : bytes) (c : ascii) (i : Z) : Z :=
  match s with
  | [] => npos
  | x :: r => if Ascii.eqb x c then i else find_from r c (i + 1)
  end.

(** [s.find(c, 0)] *)
Definition str_find (s : bytes) (c : ascii) : Z := find_from s c 0.

(** [s.substr(0, n)]: at most [n] characters, fewer when [s] is shorter. *)
Fixpoint substr0 (s : bytes) (n : Z) : bytes :=
  match s with
  | [] => []
  | x :: r => if 0 <? n then x :: substr0 r (n - 1) else []
  end.

(** ** The LLVM objects the pass looks at *)

Inductive Ty : Type :=
| IntegerTy (bits : N)
| PointerTy (pointee : Ty) (addrspace : N)
| OtherTy (tag : N).

(** LLVM types are uniqued: pointer equality of [Type *] is structural
    equality. *)
Fixpoint Ty_eqb (a b : Ty) : bool :=
  match a, b with
  | IntegerTy n, IntegerTy m => N.eqb n m
  | PointerTy p n, PointerTy q m => Ty_eqb p q && N.eqb n m
  | OtherTy n, OtherTy m => N.eqb n m
  | _, _ => false
  end.

Definition isIntegerTy (t : Ty) : bool :=
  match t with IntegerTy _ => true | _ => false end.

Definition isIntegerTyN (n : N) (t : Ty) : bool :=
  match t with IntegerTy b => N.eqb b n | _ => false end.

Definition isPointerTy (t : Ty) : bool :=
  match t with PointerTy _ _ => true | _ => false end.

(** [IntegerType::getInt8PtrTy(ctx)]: [i8*] in address space 0. *)
Definition Int8PtrTy : Ty := PointerTy (IntegerTy 8) 0.

Record FunctionType : Type := {
  getReturnType : Ty;
  params : list Ty
}.

Record Function : Type := {
  getName : string;
  getFunctionType : FunctionType
}.

(** What [Var->getInitializer()] is. *)
Inductive Initializer : Type :=
| ConstantDataArray (getAsString : bytes)
| OtherInitializer.

(** Operand 0 of a constant expression; for a global variable,
    [hasInitializer] and [getInitializer] together. *)
Inductive Operand0 : Type :=
| GlobalVariable (initializer : option Initializer)
| OtherOperand.

Inductive ValueKind : Type :=
| ConstantExpr (isGEPWithNoNotionalOverIndexing : bool) (operand0 : Operand0)
| ConstantInt (getZExtValue : Z)
| OtherValue.

(** A [Value *].  [addr] is the pointer itself, the key of [valueMap].
    [constantStringInfo] is the answer of LLVM's constant-string analysis
    for this value: [Some s] when it succeeds with the string [s]. *)
Record Value : Type := {
  addr : positive;
  kind : ValueKind;
  constantStringInfo : option bytes
}.

(** [llvm::getConstantStringInfo(V, Str)]: on success the out-parameter is
    assigned the string; on failure LLVM returns before touching it. *)
Definition getConstantStringInfo (V : Value) (Str : bytes) : bool * bytes :=
  match constantStringInfo V with
  | Some s => (true, s)
  | None => (false, Str)
  end.

(** [llvm::CallingConv::C] *)
Definition CallingConv_C : N := 0%N.

Record CallInst : Type := {
  getCalledFunction : option Function;
  getCallingConv : N;
  args : list Value
}.

Definition getArgOperand (callInst : CallInst) (i : nat) : option Value :=
  args callInst !! i.

(** ** Call-site classification (lines 155-211) *)

Record Flags : Type := {
  isStrcmp : bool;
  isMemcmp : bool;
  isStrncmp : bool;
  isStrcasecmp : bool;
  isStrncasecmp : bool;
  isIntMemcpy : bool
}.

(** The test of lines 175 and 209: some flag is still set. *)
Definition anyFlag (f : Flags) : bool :=
  isStrcmp f || isMemcmp f || isStrncmp f || isStrcasecmp f ||
  isStrncasecmp f || isIntMemcpy f.

(** Lines 168-173. *)
Definition nameFlags (FuncName : string) : Flags := {|
  isStrcmp := String.eqb FuncName "strcmp";
  isMemcmp := String.eqb FuncName "memcmp";
  isStrncmp := String.eqb FuncName "strncmp";
  isStrcasecmp := String.eqb FuncName "strcasecmp";
  isStrncasecmp := String.eqb FuncName "strncasecmp";
  isIntMemcpy := String.eqb FuncName "llvm.memcpy.p0i8.p0i8.i64"
|}.

(** The prototype of strcmp and strcasecmp (lines 183-190). *)
Definition protoStr2 (FT : FunctionType) : bool :=
  match params FT with
  | [p0; p1] =>
      isIntegerTyN 32 (getReturnType FT) && Ty_eqb p0 p1 && Ty_eqb p0 Int8PtrTy
  | _ => false
  end.

(** The prototype of memcmp (lines 191-195). *)
Definition protoMem (FT : FunctionType) : bool :=
  match params FT with
  | [p0; p1; p2] =>
      isIntegerTyN 32 (getReturnType FT) && isPointerTy p0 && isPointerTy p1 &&
      isIntegerTy p2
  | _ => false
  end.

(** The prototype of strncmp and strncasecmp (lines 196-207). *)
Definition protoStr3 (FT : FunctionType) : bool :=
  match params FT with
  | [p0; p1; p2] =>
      isIntegerTyN 32 (getReturnType FT) && Ty_eqb p0 p1 &&
      Ty_eqb p0 Int8PtrTy && isIntegerTy p2
  | _ => false
  end.

(** Lines 181-207: every comparison flag is and-ed with its prototype check;
    [isIntMemcpy] is left as the name test set it. *)
Definition prototypeFlags (FT : FunctionType) (f : Flags) : Flags := {|
  isStrcmp := isStrcmp f && protoStr2 FT;
  isMemcmp := isMemcmp f && protoMem FT;
  isStrncmp := isStrncmp f && protoStr3 FT;
  isStrcasecmp := isStrcasecmp f && protoStr2 FT;
  isStrncasecmp := isStrncasecmp f && protoStr3 FT;
  isIntMemcpy := isIntMemcpy f
|}.

(** Lines 164-211.  [None] is one of the four [continue]s. *)
Definition classify (callInst : CallInst) : option (Function * Flags) :=
  match getCalledFunction callInst with
  | None => None
  | Some Callee =>
      if negb (N.eqb (getCallingConv callInst) CallingConv_C) then None
      else
        let f := nameFlags (getName Callee) in
        if negb (anyFlag f) then None
        else
          let f := prototypeFlags (getFunctionType Callee) f in
          if negb (anyFlag f) then None else Some (Callee, f)
  end.

(** The six function kinds, for stating properties by kind. *)
Inductive Kind : Type :=
| Strcmp | Memcmp | Strncmp | Strcasecmp | Strncasecmp | IntMemcpy.

Definition flagsOf (k : Kind) : Flags := {|
  isStrcmp := match k with Strcmp => true | _ => false end;
  isMemcmp := match k with Memcmp => true | _ => false end;
  isStrncmp := match k with Strncmp => true | _ => false end;
  isStrcasecmp := match k with Strcasecmp => true | _ => false end;
  isStrncasecmp := match k with Strncasecmp => true | _ => false end;
  isIntMemcpy := match k with IntMemcpy => true | _ => false end
|}.

Definition kindName (k : Kind) : string :=
  match k with
  | Strcmp => "strcmp"
  | Memcmp => "memcmp"
  | Strncmp => "strncmp"
  | Strcasecmp => "strcasecmp"
  | Strncasecmp => "strncasecmp"
  | IntMemcpy => "llvm.memcpy.p0i8.p0i8.i64"
  end.

(** ** Resolving an operand to a constant string *)

(** [DenseMap<Value *, std::string *> valueMap]: a stored [None] is a null
    pointer. *)
Abbreviation ValueMap := (gmap positive (option bytes)).

(** [valueMap[V]] as an rvalue: a key that is absent is inserted with a
    null pointer. *)
Definition valueMap_index (valueMap : ValueMap) (k : positive)
  : ValueMap * option bytes :=
  match valueMap !! k with
  | Some p => (valueMap, p)
  | None => (<[k := None]> valueMap, None)
  end.

(** Lines 221-231 and 233-243.  The result of the call is overwritten at
    once: only the emptiness of [TmpStr] decides, and [TmpStr] is one
    variable for both operands. *)
Definition literalStep (TmpStr : bytes) (V : Value) : bytes * bool * bytes :=
  let '(_, TmpStr) := getConstantStringInfo V TmpStr in
  match TmpStr with
  | [] => (TmpStr, false, [])
  | _ :: _ => (TmpStr, true, TmpStr)
  end.

(** Lines 253-276 and 327-351: a constant GEP on a global variable whose
    initializer is a constant data array. *)
Definition globalStep (V : Value) (Has : bool) (Str : bytes) : bool * bytes :=
  if negb Has then
    match kind V with
    | ConstantExpr true (GlobalVariable (Some (ConstantDataArray s))) =>
        (true, s)
    | _ => (Has, Str)
    end
  else (Has, Str).

(** Lines 313-325 and 355-367: a string saved for this value by an earlier
    memcpy. *)
Definition localStep (valueMap : ValueMap) (V : Value) (Has : bool)
    (Str : bytes) : ValueMap * bool * bytes :=
  if negb Has then
    let '(valueMap, strng) := valueMap_index valueMap (addr V) in
    match strng with
    | Some (c :: s) => (valueMap, true, c :: s)
    | _ => (valueMap, Has, Str)
    end
  else (valueMap, Has, Str).

(** Lines 284-297: the string the memcpy hook saves. *)
Definition copyString (Str2 : bytes) (op2 : Value) : bytes :=
  match kind op2 with
  | ConstantInt n =>
      let literalLength := str_length Str2 in
      let optLength := wrap64 n in
      if wrap64 (literalLength + 1) =? optLength then Str2 ++ [NUL] else Str2
  | _ => Str2
  end.

(** ** Reconciling the string with the length operand (lines 379-415) *)

(** Lines 379-397.  [None]: the call has no third operand. *)
Definition lengthStep (f : Flags) (callInst : CallInst) (thestring : bytes)
  : option (bytes * Z * bool) :=
  let optLen := str_length thestring in
  if isMemcmp f || isStrncmp f || isStrncasecmp f then
    match getArgOperand callInst 2 with
    | None => None
    | Some op2 =>
        match kind op2 with
        | ConstantInt n =>
            let literalLength := optLen in
            let optLen := wrap64 n in
            if wrap64 (literalLength + 1) =? optLen
            then Some (thestring ++ [NUL], optLen, true)
            else Some (thestring, optLen, false)
        | _ => Some (thestring, optLen, false)
        end
    end
  else Some (thestring, optLen, false).

(** Lines 401-415. *)
Definition terminatorStep (f : Flags) (thestring : bytes) (optLen : Z)
    (addedNull : bool) : bytes * Z :=
  if negb (isMemcmp f) then
    let '(thestring, optLen) :=
      if negb addedNull then (thestring ++ [NUL], wrap64 (optLen + 1))
      else (thestring, optLen) in
    let offset := str_find thestring NUL in
    let optLen :=
      if wrap64 (offset + 1) <? optLen then wrap64 (offset + 1) else optLen in
    (substr0 thestring optLen, optLen)
  else (thestring, optLen).

(** Lines 379-415 together.  [None]: the call has no third operand. *)
Definition reconcile (f : Flags) (callInst : CallInst) (thestring : bytes)
  : option (bytes * Z) :=
  match lengthStep f callInst thestring with
  | None => None
  | Some (thestring, optLen, addedNull) =>
      Some (terminatorStep f thestring optLen addedNull)
  end.

(** ** One call instruction, up to the candidate (lines 153-415) *)

Inductive Step : Type :=
| Skip
| Candidate (FuncName : string) (thestring : bytes) (optLen : Z)
| BadOperand.

(** [Skip] is a [continue]; [Candidate] reaches line 417 with [thestring]
    and [optLen]; [BadOperand] is a [getArgOperand] beyond the operands of
    the call, which no verified module has. *)
Definition analyzeCall (valueMap : ValueMap) (callInst : CallInst)
  : ValueMap * Step :=
  match classify callInst with
  | None => (valueMap, Skip)
  | Some (Callee, f) =>
      match getArgOperand callInst 0, getArgOperand callInst 1 with
      | Some Str1P, Some Str2P =>
          let TmpStr : bytes := [] in
          let '(TmpStr, HasStr1, Str1) := literalStep TmpStr Str1P in
          let '(TmpStr, HasStr2, Str2) := literalStep TmpStr Str2P in
          let '(HasStr2, Str2) := globalStep Str2P HasStr2 Str2 in
          if isIntMemcpy f then
            if HasStr2 then
              match getArgOperand callInst 2 with
              | Some op2 =>
                  (<[addr Str1P := Some (copyString Str2 op2)]> valueMap, Skip)
              | None => (valueMap, BadOperand)
              end
            else (valueMap, Skip)
          else
            let '(valueMap, HasStr2, Str2) :=
              localStep valueMap Str2P HasStr2 Str2 in
            let '(HasStr1, Str1) := globalStep Str1P HasStr1 Str1 in
            let '(valueMap, HasStr1, Str1) :=
              localStep valueMap Str1P HasStr1 Str1 in
            if negb (xorb HasStr1 HasStr2) then (valueMap, Skip)
            else
              let thestring := if HasStr1 then Str1 else Str2 in
              match reconcile f callInst thestring with
              | None => (valueMap, BadOperand)
              | Some (thestring, optLen) =>
                  (valueMap, Candidate (getName Callee) thestring optLen)
              end
      | _, _ => (valueMap, BadOperand)
      end
  end.

(** ** Faults: behaviour the C++ standard leaves undefined *)

Inductive fault : Type :=
| TmpOverrun    (* sprintf past the end of [tmp] *)
| LineOverrun   (* a write past the end of [line] *)
| LineOverread. (* strlen running off the end of [line] *)

Inductive res (A : Type) : Type :=
| Ok (a : A)
| Fault (f : fault).
Arguments Ok {A} a.
Arguments Fault {A} f.

Definition bind {A B : Type} (r : res A) (k : A -> res B) : res B :=
  match r with
  | Ok a => k a
  | Fault f => Fault f
  end.

Notation "x <- r ;; k" := (bind r (fun x => k))
  (at level 100, r at next level, right associativity).

(** ** The character buffer [line] and the C string functions *)

(** [buf[k] = c], checked against the size of the array. *)
Definition poke (buf : bytes) (k : nat) (c : ascii) : res bytes :=
  if (k <? length buf)%nat then Ok (<[k := c]> buf) else Fault LineOverrun.

(** Consecutive stores [buf[k] = s[0]; buf[k+1] = s[1]; ...]. *)
Fixpoint pokes (buf : bytes) (k : nat) (s : bytes) : res bytes :=
  match s with
  | [] => Ok buf
  | c :: r => buf <- poke buf k c ;; pokes buf (S k) r
  end.

(** The index of the first zero byte. *)
Fixpoint strlen_from (buf : bytes) (k : nat) : res nat :=
  match buf with
  | [] => Fault LineOverread
  | c :: r => if Ascii.eqb c NUL then Ok k else strlen_from r (S k)
  end.

Definition strlen (buf : bytes) : res nat := strlen_from buf 0.

(** [strcpy(buf, s)] for a string [s] given without its terminator. *)
Definition strcpy (buf : bytes) (s : bytes) : res bytes :=
  pokes buf 0 (s ++ [NUL]).

(** [strcat(buf, s)] *)
Definition strcat (buf : bytes) (s : bytes) : res bytes :=
  n <- strlen buf ;; pokes buf n (s ++ [NUL]).

(** [isprint] in the "C" locale, the locale of a process that never calls
    setlocale: the codes 0x20 to 0x7e. *)
Definition isprint (c : ascii) : bool :=
  let n := N_of_ascii c in (32 <=? n)%N && (n <=? 126)%N.

Definition hexdigit (d : Z) : ascii :=
  nth (Z.to_nat d) (lit "0123456789abcdef") "0"%char.

(** Leading zero digits are dropped down to the minimum field width. *)
Fixpoint dropZeros (width : nat) (ds : list Z) : list Z :=
  match ds with
  | [] => []
  | d :: r =>
      if (d =? 0) && (width <? length ds)%nat then dropZeros width r else ds
  end.

(** The conversion [%02x] of an [int] argument: the argument is read as a
    32-bit unsigned number and printed in hexadecimal, at least two digits. *)
Definition fmt_02x (v : Z) : bytes :=
  let u := v mod 2 ^ 32 in
  map hexdigit
    (dropZeros 2 (map (fun k => (u / 16 ^ k) mod 16) [7; 6; 5; 4; 3; 2; 1; 0])).

(** ** The state of the run and the dictionary file *)

(** What the pass does to the file descriptor [fd]. *)
Inductive Event : Type :=
| EvWrite (data : bytes)
| EvFsync
| EvClose.

(** The variables of [runOnModule] that live across instructions, and the
    descriptor: whether it is still open, and the calls made on it, the
    latest last. *)
Record World : Type := {
  valueMap : ValueMap;
  line : bytes;
  fd_open : bool;
  trace : list Event;
  found : Z
}.

Definition setValueMap (w : World) (m : ValueMap) : World :=
  {| valueMap := m; line := line w; fd_open := fd_open w;
     trace := trace w; found := found w |}.

Definition setLine (w : World) (l : bytes) : World :=
  {| valueMap := valueMap w; line := l; fd_open := fd_open w;
     trace := trace w; found := found w |}.

(** Lines 470-473 on an open descriptor: the write succeeds, the file is
    synced, the counter goes up. *)
Definition wrote (w : World) (data : bytes) : World :=
  {| valueMap := valueMap w; line := line w; fd_open := fd_open w;
     trace := trace w ++ [EvWrite data; EvFsync]; found := found w + 1 |}.

(** Line 481. *)
Definition closed (w : World) : World :=
  {| valueMap := valueMap w; line := line w; fd_open := false;
     trace := trace w ++ [EvClose]; found := found w |}.

(** The data of the writes, oldest first: what the run appended to the
    dictionary file. *)
Definition written (w : World) : list bytes :=
  omap (fun e => match e with EvWrite d => Some d | _ => None end) (trace w).

Inductive Outcome : Type :=
| Running (w : World)              (* control goes on *)
| Fatal (w : World)                (* PFATAL of line 471 *)
| Hung (w : World)                 (* the loop of line 422 never ends *)
| Undefined (f : fault) (w : World)
    (* an access outside [tmp] or [line]; [w] is the state just before it,
       and what the pass does from there on is not described *)
| Malformed (w : World).           (* an operand the call does not have *)

Definition outcomeWorld (o : Outcome) : World :=
  match o with
  | Running w | Fatal w | Hung w | Undefined _ w | Malformed w => w
  end.

(** The run stayed within defined behaviour: no access went outside [tmp]
    or [line]. *)
Definition defined (o : Outcome) : bool :=
  match o with
  | Undefined _ _ => false
  | _ => true
  end.

Inductive Instruction : Type :=
| Call (callInst : CallInst)
| OtherInstruction.

(** A function of the module: the [Function] and its basic blocks. *)
Record FunctionDef : Type := {
  fn : Function;
  blocks : list (list Instruction)
}.


(** The state after line 110: the file is open, nothing is written, the
    map is empty, and [line] holds whatever the stack held. *)
Definition initialWorld (line0 : bytes) : World :=
  {| valueMap := ∅; line := line0; fd_open := true; trace := [];
     found := 0 |}.

(** ** Concrete values and calls, for examples *)

Definition i32 : Ty := IntegerTy 32.
Definition i64 : Ty := IntegerTy 64.

(** A declaration returning [i32]. *)
Definition declare (name : string) (ps : list Ty) : Function :=
  {| getName := name;
     getFunctionType := {| getReturnType := i32; params := ps |} |}.

Definition strcmp_decl : Function := declare "strcmp" [Int8PtrTy; Int8PtrTy].
Definition strncmp_decl : Function :=
  declare "strncmp" [Int8PtrTy; Int8PtrTy; i64].
Definition memcmp_decl : Function :=
  declare "memcmp" [Int8PtrTy; Int8PtrTy; i64].

(** [declare i32 @memcmp(i8*, i32*, i64)] *)
Definition memcmp_mixed_decl : Function :=
  declare "memcmp" [Int8PtrTy; PointerTy i32 0; i64].

(** [declare void @llvm.memcpy.p0i8.p0i8.i64(i8*, i8*, i64, i1)] *)
Definition memcpy_decl : Function :=
  {| getName := "llvm.memcpy.p0i8.p0i8.i64";
     getFunctionType :=
       {| getReturnType := OtherTy 0;
          params := [Int8PtrTy; Int8PtrTy; i64; IntegerTy 1] |} |}.

(** A C string literal: a constant GEP on a private constant global whose
    initializer is the string with its terminator; the constant-string
    analysis yields the string up to the terminator. *)
Definition literal (a : positive) (s : bytes) : Value :=
  {| addr := a;
     kind := ConstantExpr true
               (GlobalVariable (Some (ConstantDataArray (s ++ [NUL]))));
     constantStringInfo := Some s |}.

(** A value computed at run time, such as a parameter or an alloca. *)
Definition runtime (a : positive) : Value :=
  {| addr := a; kind := OtherValue; constantStringInfo := None |}.

Definition constInt (a : positive) (n : Z) : Value :=
  {| addr := a; kind := ConstantInt n; constantStringInfo := None |}.

Definition callTo (F : Function) (operands : list Value) : CallInst :=
  {| getCalledFunction := Some F; getCallingConv := CallingConv_C;
     args := operands |}.

(** [memcpy(dst, src, n)] as the intrinsic call clang emits. *)
Definition copy (dst src : Value) (n : Z) : Instruction :=
  Call (callTo memcpy_decl [dst; src; constInt 1000 n; constInt 1001 0]).

(** The empty literal: its global is zero-initialized, which is not a
    constant data array, and the constant-string analysis yields the empty
    string. *)
Definition emptyLiteral (a : positive) : Value :=
  {| addr := a;
     kind := ConstantExpr true (GlobalVariable (Some OtherInitializer));
     constantStringInfo := Some [] |}.

(** A function named [name] with one basic block. *)
Definition define (name : string) (body : list Instruction) : FunctionDef :=
  {| fn := declare name []; blocks := [body] |}.

(** Some content for the 256 bytes of [line] before the pass writes it. *)
Definition stack256 : bytes := replicate 256 "#"%char.

Definition world0 : World := initialWorld stack256.

(** A buffer filled at run time and a local array. *)
Definition bufX : Value := runtime 1.
Definition arrD : Value := runtime 2.

(** [strcmp(x, "foo")] *)
Definition strcmp_x_foo : CallInst :=
  callTo strcmp_decl [bufX; literal 3 (lit "foo")].

(** [strcmp(x, "")] *)
Definition strcmp_x_empty : CallInst :=
  callTo strcmp_decl [bufX; emptyLiteral 3].

(** [strcmp(x, d)] *)
Definition strcmp_x_d : CallInst := callTo strcmp_decl [bufX; arrD].

(** [strncmp(x, "abcdef", 3)] and [memcmp(x, "abcdef", 3)] *)
Definition strncmp_x_abcdef_3 : CallInst :=
  callTo strncmp_decl [bufX; literal 3 (lit "abcdef"); constInt 4 3].
Definition memcmp_x_abcdef_3 : CallInst :=
  callTo memcmp_decl [bufX; literal 3 (lit "abcdef"); constInt 4 3].

(** The three bytes 'a', 0x01, 'b'. *)
Definition a01b : bytes := ["a"%char; ascii_of_N 1; "b"%char].

(** [memcmp(x, "a\x01b", 3)] *)
Definition memcmp_x_a01b : CallInst :=
  callTo memcmp_decl [bufX; literal 3 a01b; constInt 4 3].

(** [memcmp(x, "foo", 3)] through a declaration whose two pointer
    parameters differ in type. *)
Definition memcmp_mixed_x_foo : CallInst :=
  callTo memcmp_mixed_decl [bufX; literal 3 (lit "foo"); constInt 4 3].

(** [char d[] = "ID01";] as clang emits it. *)
Definition copy_ID01 : CallInst :=
  callTo memcpy_decl [arrD; literal 3 (lit "ID01"); constInt 4 5; constInt 5 0].

(** A static address into a writable global array, [static char g[] = ...]:
    the initializer is a constant data array, and the constant-string
    analysis fails since the global is not constant. *)
Definition globalArray (a : positive) (init : bytes) : Value :=
  {| addr := a;
     kind := ConstantExpr true (GlobalVariable (Some (ConstantDataArray init)));
     constantStringInfo := None |}.

(** [static char g[] = "wxyz";] and [memcpy("abc", g, 6)]: the destination
    is a string literal. *)
Definition arrG : Value := globalArray 6 (lit "wxyz" ++ [NUL]).
Definition copy_abc_g : CallInst :=
  callTo memcpy_decl
    [literal 3 (lit "abc"); arrG; constInt 4 6; constInt 5 0].

(** [strcmp("foo", x)] *)
Definition strcmp_foo_x : CallInst :=
  callTo strcmp_decl [literal 3 (lit "foo"); bufX].

(** [strncmp(x, "abc", SIZE_MAX)] *)
Definition strncmp_x_abc_max : CallInst :=
  callTo strncmp_decl [bufX; literal 3 (lit "abc"); constInt 4 (2 ^ 64 - 1)].

(** [strcmp] of [x] against a literal of 255 letters. *)
Definition strcmp_x_long : CallInst :=
  callTo strcmp_decl [bufX; literal 3 (replicate 255 "A"%char)].

(** The first four bytes of a PNG file: 0x89 'P' 'N' 'G'. *)
Definition png : bytes := [ascii_of_N 137; "P"%char; "N"%char; "G"%char].

(** [memcmp(x, "\\x89PNG", 4)] *)
Definition memcmp_x_png : CallInst :=
  callTo memcmp_decl [bufX; literal 3 png; constInt 4 4].

(** ** The parameters of the pass *)

Section Pass.

(** [config.h] is not part of the sources at hand; its two bounds are
    parameters of the development. *)
Variable MAX_AUTO_EXTRA : Z.
Variable MIN_AUTO_EXTRA : Z.

(** The global [be_quiet] of debug.h. *)
Variable be_quiet : bool.

(** Whether plain [char] is a signed type on the platform. *)
Variable char_signed : bool.

(** ** From the candidate to the dictionary line (lines 417-469) *)

(** The value of a [char] after integer promotion. *)
Definition charToInt (c : ascii) : Z :=
  let n := Z.of_N (N_of_ascii c) in
  if char_signed && (128 <=? n) then n - 256 else n.

(** [sprintf(tmp, "\\x%02x", ptr[i])] into [char tmp[8]]. *)
Definition sprintf_tmp (c : ascii) : res bytes :=
  let s := lit "\x" ++ fmt_02x (charToInt c) in
  if (length s + 1 <=? 8)%nat then Ok s else Fault TmpOverrun.

(** Lines 417-434: the loop counter of the diagnostic print is a
    [uint8_t]; it cannot reach a length of 256 or more, and the loop does
    not end then. *)
Definition diagTerminates (thestring : bytes) : bool :=
  be_quiet || (str_length thestring <? 256).

(** Lines 440-443.  [None] is the [continue] of line 443. *)
Definition clampLen (thestring : bytes) (optLen : Z) : option Z :=
  let optLen :=
    if negb (optLen =? str_length thestring) then str_length thestring
    else optLen in
  let optLen :=
    if MAX_AUTO_EXTRA <? optLen then MAX_AUTO_EXTRA else optLen in
  if optLen <? MIN_AUTO_EXTRA then None else Some optLen.

(** The loop of lines 448-466.  [ptr] holds the bytes [ptr[i]] to
    [ptr[optLen - 1]] still to visit; [optLen] is at most the length of the
    string when the loop is entered (line 440).  The [int]s [i] and [j]
    stay below [optLen + 2]. *)
Fixpoint renderLoop (ptr : bytes) (i optLen : Z) (line : bytes) (j : nat)
  : res (bytes * nat) :=
  match ptr with
  | [] => Ok (line, j)
  | c :: rest =>
      if isprint c then
        line <- poke line j c ;;
        renderLoop rest (i + 1) optLen line (S j)
      else if negb (i + 1 =? optLen) || negb (Ascii.eqb c NUL) then
        line <- poke line j NUL ;;
        tmp <- sprintf_tmp c ;;
        line <- strcat line tmp ;;
        renderLoop rest (i + 1) optLen line j
      else renderLoop rest (i + 1) optLen line j
  end.

(** Lines 445-470: the new content of [line], and the bytes handed to
    [write], which are [line] up to its first zero byte. *)
Definition render (line : bytes) (thestring : bytes) (optLen : Z)
  : res (bytes * bytes) :=
  line <- strcpy line [DQUOTE] ;;
  lj <- renderLoop (substr0 thestring optLen) 0 optLen line 1 ;;
  let '(line, j) := lj in
  line <- poke line j NUL ;;
  line <- strcat line [DQUOTE; LF] ;;
  n <- strlen line ;;
  Ok (line, take n line).

(** Lines 417-473.  A write on the open descriptor is taken to succeed;
    [write] on a closed descriptor returns -1. *)
Definition emit (w : World) (thestring : bytes) (optLen : Z) : Outcome :=
  if negb (diagTerminates thestring) then Hung w
  else
    match clampLen thestring optLen with
    | None => Running w
    | Some optLen =>
        match render (line w) thestring optLen with
        | Fault f => Undefined f w
        | Ok (line', data) =>
            let w := setLine w line' in
            if fd_open w then Running (wrote w data) else Fatal w
        end
    end.

(** The body of the loop of line 149. *)
Definition runOnInstruction (w : World) (IN : Instruction) : Outcome :=
  match IN with
  | OtherInstruction => Running w
  | Call callInst =>
      let '(m, step) := analyzeCall (valueMap w) callInst in
      let w := setValueMap w m in
      match step with
      | Skip => Running w
      | BadOperand => Malformed w
      | Candidate _ thestring optLen => emit w thestring optLen
      end
  end.

Fixpoint runOnInstructions (w : World) (INs : list Instruction) : Outcome :=
  match INs with
  | [] => Running w
  | IN :: rest =>
      match runOnInstruction w IN with
      | Running w => runOnInstructions w rest
      | o => o
      end
  end.

(** ** The loops over the module (lines 115-483) *)

(** [isIgnoreFunction] is defined in afl-llvm-common.cc, which is not part
    of the sources at hand. *)
Variable isIgnoreFunction : Function -> bool.

(** The body of the loop of line 115.  The two inner loops visit the
    instructions of all blocks in order, and every [continue] belongs to
    the innermost one. *)
Definition runOnFunction (w : World) (F : FunctionDef) : Outcome :=
  if isIgnoreFunction (fn F) then Running w
  else
    match runOnInstructions w (concat (blocks F)) with
    | Running w => Running (closed w)
    | o => o
    end.

Fixpoint runOnFunctions (w : World) (M : list FunctionDef) : Outcome :=
  match M with
  | [] => Running w
  | F :: rest =>
      match runOnFunction w F with
      | Running w => runOnFunctions w rest
      | o => o
      end
  end.

(** Lines 113-483, for any content [line0] of the uninitialised array. *)
Definition runOnModule (line0 : bytes) (M : list FunctionDef) : Outcome :=
  runOnFunctions (initialWorld line0) M.

(** ** The resolver in the words of the design

    The three rules of the Byte-Sequence Resolver, written per operand as
    the design states them, to compare the flags of the pass with. *)

(** Rule 2: a static address into a global with a constant byte array as
    initializer. *)
Definition globalInitializer (V : Value) : option bytes :=
  match kind V with
  | ConstantExpr true (GlobalVariable (Some (ConstantDataArray s))) => Some s
  | _ => None
  end.

(** The string bound to a reference, when the table holds one. *)
Definition binding (m : ValueMap) (k : positive) : option bytes :=
  match m !! k with
  | Some (Some s) => Some s
  | _ => None
  end.

(** Rule 1, then rule 2, then rule 3. *)
Definition specResolve (m : ValueMap) (V : Value) : option bytes :=
  match constantStringInfo V with
  | Some (c :: s) => Some (c :: s)
  | _ =>
      match globalInitializer V with
      | Some s => Some s
      | None =>
          match binding m (addr V) with
          | Some (c :: s) => Some (c :: s)
          | _ => None
          end
      end
  end.

Definition specResolves (m : ValueMap) (V : Value) : bool :=
  match specResolve m V with Some _ => true | None => false end.

(** The second operand is also flagged when its own analysis fails and
    [TmpStr] still holds the literal found for the first operand. *)
Definition staleLiteral (Str1P Str2P : Value) : bool :=
  match constantStringInfo Str1P, constantStringInfo Str2P with
  | Some (_ :: _), None => true
  | _, _ => false
  end.

(** What a classified call has been checked for, kind by kind. *)
Definition signatureOf (k : Kind) (FT : FunctionType) : Prop :=
  match k with
  | Strcmp | Strcasecmp =>
      params FT = [Int8PtrTy; Int8PtrTy] /\ getReturnType FT = IntegerTy 32
  | Strncmp | Strncasecmp =>
      exists p2, params FT = [Int8PtrTy; Int8PtrTy; p2] /\
                 isIntegerTy p2 = true /\ getReturnType FT = IntegerTy 32
  | Memcmp =>
      exists p0 p1 p2, params FT = [p0; p1; p2] /\ isPointerTy p0 = true /\
        isPointerTy p1 = true /\ isIntegerTy p2 = true /\
        getReturnType FT = IntegerTy 32
  | IntMemcpy => True
  end.

(** ** Copy sites *)

(** Lines 219-276 for the second operand: the string the pass holds for
    it before the table is consulted.  The first operand matters through
    the shared [TmpStr]. *)
Definition staticSource (Str1P Str2P : Value) : option bytes :=
  let '(TmpStr, _, _) := literalStep [] Str1P in
  let '(_, HasStr2, Str2) := literalStep TmpStr Str2P in
  let '(HasStr2, Str2) := globalStep Str2P HasStr2 Str2 in
  if HasStr2 then Some Str2 else None.

(** Rules 1 and 2 for one operand, in the words of the design. *)
Definition specResolveStatic (V : Value) : option bytes :=
  match constantStringInfo V with
  | Some (c :: s) => Some (c :: s)
  | _ => globalInitializer V
  end.

(** What a call instruction binds: the destination and the saved string,
    when the call is the memcpy intrinsic and the pass holds a string for
    its source. *)
Definition copySite (callInst : CallInst) : option (positive * bytes) :=
  match classify callInst with
  | Some (_, f) =>
      if isIntMemcpy f then
        match args callInst with
        | Str1P :: Str2P :: op2 :: _ =>
            match staticSource Str1P Str2P with
            | Some Str2 => Some (addr Str1P, copyString Str2 op2)
            | None => None
            end
        | _ => None
        end
      else None
  | None => None
  end.

(** The string bound to [d] by one instruction, if it binds [d]. *)
Definition copyInto (d : positive) (IN : Instruction) : option bytes :=
  match IN with
  | Call callInst =>
      match copySite callInst with
      | Some (d', s) => if decide (d' = d) then Some s else None
      | None => None
      end
  | OtherInstruction => None
  end.

(** The string of the latest copy into [d] among the instructions. *)
Fixpoint lastCopy (d : positive) (INs : list Instruction) : option bytes :=
  match INs with
  | [] => None
  | IN :: rest =>
      match lastCopy d rest with
      | Some s => Some s
      | None => copyInto d IN
      end
  end.

(** ** Counting what happens to the descriptor *)

Definition isClose (e : Event) : bool :=
  match e with EvClose => true | _ => false end.

(** How many times [close] was called. *)
Definition closes (t : list Event) : nat := length (List.filter isClose t).

(** The functions of the module that the pass scans. *)
Definition scanned (M : list FunctionDef) : list FunctionDef :=
  List.filter (fun F => negb (isIgnoreFunction (fn F))) M.

(** The instructions of the scanned functions, in the order of the scan. *)
Definition moduleInstructions (M : list FunctionDef) : list Instruction :=
  concat (map (fun F => concat (blocks F)) (scanned M)).

(** ** Notions for stating what the pass does *)

(** The C string held in a byte sequence: the bytes before the first zero
    byte. *)
Fixpoint cstr (s : bytes) : bytes :=
  match s with
  | [] => []
  | c :: r => if Ascii.eqb c NUL then [] else c :: cstr r
  end.

(** A line of the dictionary file with [body] between the quotes. *)
Definition quoted (body : bytes) : bytes := DQUOTE :: body ++ [DQUOTE; LF].

(** Every write in the trace is followed at once by a sync. *)
Fixpoint synced (t : list Event) : bool :=
  match t with
  | [] => true
  | EvWrite _ :: rest =>
      match rest with
      | EvFsync :: rest' => synced rest'
      | _ => false
      end
  | _ :: rest => synced rest
  end.

(** Lines 485-494: what the pass says when it is done. *)
Inductive Summary : Type :=
| Silent
| NoEntries
| Wrote (n : Z).

Definition summary (w : World) : Summary :=
  if negb be_quiet then
    if found w =? 0 then NoEntries else Wrote (found w)
  else Silent.

(** Lines 422-430: what the diagnostic loop prints for one byte, read as a
    [uint8_t]. *)
Definition diagByte (c : ascii) : bytes :=
  let n := N_of_ascii c in
  if (n <=? 32)%N || (127 <=? n)%N then lit "\x" ++ fmt_02x (Z.of_N n)
  else [c].

(** Lines 422-430: what the loop prints between the quotes, when it ends. *)
Definition diagText (thestring : bytes) : option bytes :=
  if str_length thestring <? 256 then Some (concat (map diagByte thestring))
  else None.


(** What every line of the file looks like: printable bytes, at most
    [MAX_AUTO_EXTRA] of them, between two double quotes, and a line feed. *)
Definition entryLine (data : bytes) : Prop :=
  exists body, data = quoted body /\
    Forall (fun c => isprint c = true) body /\
    Z.of_nat (length body) <= MAX_AUTO_EXTRA.

(** The C function [isgraph] in the "C" locale: the codes 33 to 126. *)
Definition isgraph (c : ascii) : bool :=
  let n := N_of_ascii c in (33 <=? n)%N && (n <=? 126)%N.


(** ** Basic facts about strings *)

Lemma substr0_take (s : bytes) (n : Z) : substr0 s n = take (Z.to_nat n) s.
Proof.
  revert n; induction s as [|x r IH]; intros n; simpl.
  - by rewrite take_nil.
  - destruct (Z.ltb_spec 0 n) as [Hn|Hn].
    + rewrite IH. replace (Z.to_nat n) with (S (Z.to_nat (n - 1))) by lia.
      reflexivity.
    + replace (Z.to_nat n) with 0%nat by lia. reflexivity.
Qed.

Lemma substr0_length (s : bytes) (n : Z) :
  0 <= n <= str_length s -> str_length (substr0 s n) = n.
Proof.
  unfold str_length. intros Hn. rewrite substr0_take, length_take. lia.
Qed.

Lemma find_from_range (s : bytes) (c : ascii) (i : Z) :
  c ∈ s -> i <= find_from s c i < i + str_length s.
Proof.
  unfold str_length. revert i; induction s as [|x r IH]; intros i Hin.
  - by apply elem_of_nil in Hin.
  - simpl. destruct (Ascii.eqb_spec x c) as [->|Hne].
    + lia.
    + apply elem_of_cons in Hin as [Heq|Hin]; [congruence|].
      specialize (IH (i + 1) Hin). lia.
Qed.

Lemma wrap64_small (z : Z) : 0 <= z < 2 ^ 64 -> wrap64 z = z.
Proof. intros Hz. unfold wrap64. by apply Z.mod_small. Qed.

(** ** The classifier *)

Lemma Ty_eqb_eq (a b : Ty) : Ty_eqb a b = true <-> a = b.
Proof.
  revert b; induction a as [n|p IH n|n]; intros [m|q m|m]; simpl;
    try (split; [discriminate|congruence]).
  - rewrite N.eqb_eq. split; congruence.
  - rewrite andb_true_iff, N.eqb_eq, IH. split.
    + intros [-> ->]; reflexivity.
    + intros [= -> ->]; auto.
  - rewrite N.eqb_eq. split; congruence.
Qed.

Lemma isIntegerTyN_eq (n : N) (t : Ty) :
  isIntegerTyN n t = true <-> t = IntegerTy n.
Proof.
  destruct t; simpl; try (split; [discriminate|congruence]).
  rewrite N.eqb_eq. split; congruence.
Qed.

(** The six names are distinct: a name sets at most one flag. *)
Lemma nameFlags_kind (name : string) :
  anyFlag (nameFlags name) = true ->
  exists k, name = kindName k /\ nameFlags name = flagsOf k.
Proof.
  unfold anyFlag, nameFlags; simpl. intros H.
  repeat (apply orb_true_iff in H as [H|H]);
    apply String.eqb_eq in H; subst name;
    [exists Strcmp|exists Memcmp|exists Strncmp|exists Strcasecmp
    |exists Strncasecmp|exists IntMemcpy]; split; reflexivity.
Qed.

Lemma protoStr2_spec (FT : FunctionType) :
  protoStr2 FT = true ->
  params FT = [Int8PtrTy; Int8PtrTy] /\ getReturnType FT = IntegerTy 32.
Proof.
  unfold protoStr2.
  destruct (params FT) as [|p0 [|p1 [|p2 r]]]; try discriminate.
  rewrite !andb_true_iff, isIntegerTyN_eq, !Ty_eqb_eq.
  intros [[-> Heq] Hp]. subst p0. subst p1. split; reflexivity || assumption.
Qed.

Lemma protoStr3_spec (FT : FunctionType) :
  protoStr3 FT = true ->
  exists p2, params FT = [Int8PtrTy; Int8PtrTy; p2] /\
             isIntegerTy p2 = true /\ getReturnType FT = IntegerTy 32.
Proof.
  unfold protoStr3.
  destruct (params FT) as [|p0 [|p1 [|p2 [|p3 r]]]]; try discriminate.
  rewrite !andb_true_iff, isIntegerTyN_eq, !Ty_eqb_eq.
  intros [[[-> Heq] Hp] Hi]. subst p0. subst p1. exists p2. auto.
Qed.

Lemma protoMem_spec (FT : FunctionType) :
  protoMem FT = true ->
  exists p0 p1 p2, params FT = [p0; p1; p2] /\ isPointerTy p0 = true /\
    isPointerTy p1 = true /\ isIntegerTy p2 = true /\
    getReturnType FT = IntegerTy 32.
Proof.
  unfold protoMem.
  destruct (params FT) as [|p0 [|p1 [|p2 [|p3 r]]]]; try discriminate.
  rewrite !andb_true_iff, isIntegerTyN_eq.
  intros [[[-> H0] H1] H2]. exists p0, p1, p2. auto.
Qed.

Lemma classify_kind (callInst : CallInst) (Callee : Function) (f : Flags) :
  classify callInst = Some (Callee, f) ->
  getCalledFunction callInst = Some Callee /\
  getCallingConv callInst = CallingConv_C /\
  exists k, f = flagsOf k /\ getName Callee = kindName k /\
            signatureOf k (getFunctionType Callee).
Proof.
  unfold classify.
  destruct (getCalledFunction callInst) as [F|]; [|discriminate].
  destruct (N.eqb_spec (getCallingConv callInst) CallingConv_C) as [Hcc|Hcc];
    simpl; [|discriminate].
  destruct (anyFlag (nameFlags (getName F))) eqn:Hname; simpl; [|discriminate].
  destruct (nameFlags_kind _ Hname) as (k & Hk & Hf). rewrite Hf.
  destruct (anyFlag (prototypeFlags (getFunctionType F) (flagsOf k))) eqn:Hp;
    simpl; [|discriminate].
  intros [= <- <-]. split; [reflexivity|]. split; [assumption|].
  exists k. unfold anyFlag, prototypeFlags in Hp |- *.
  destruct k; simpl in Hp; rewrite ?orb_false_r in Hp; simpl; rewrite ?Hp;
    (split; [reflexivity|split; [exact Hk|]]);
    auto using protoStr2_spec, protoStr3_spec, protoMem_spec.
Qed.

(** C5 (amended).  A call is taken further only when it goes to a known
    function, with the C calling convention, whose name is one of the six
    names and, for the five comparison names, whose declared type has
    been checked: strcmp and strcasecmp take exactly two [i8*] and return
    [i32]; strncmp and strncasecmp take two [i8*] and an integer and
    return [i32]; memcmp takes two parameters that are each of some
    pointer type, not necessarily the same one, and an integer, and
    returns [i32].  Every other call is skipped and leaves the table as
    it is. *)
Theorem C5_classified_signature (m : ValueMap) (callInst : CallInst) :
  match classify callInst with
  | None => analyzeCall m callInst = (m, Skip)
  | Some (Callee, f) =>
      getCalledFunction callInst = Some Callee /\
      getCallingConv callInst = CallingConv_C /\
      exists k, f = flagsOf k /\ getName Callee = kindName k /\
                signatureOf k (getFunctionType Callee)
  end.
Proof.
  destruct (classify callInst) as [[Callee f]|] eqn:Hc.
  - by apply classify_kind.
  - unfold analyzeCall. by rewrite Hc.
Qed.

(** The three ways out of the classifier that the design names. *)
Lemma unclassified_calls (callInst : CallInst) :
  (getCalledFunction callInst = None -> classify callInst = None) /\
  (getCallingConv callInst <> CallingConv_C -> classify callInst = None) /\
  (forall Callee k,
     getCalledFunction callInst = Some Callee ->
     getName Callee = kindName k -> k <> IntMemcpy ->
     ~ signatureOf k (getFunctionType Callee) -> classify callInst = None).
Proof.
  split; [|split].
  - intros H. unfold classify. by rewrite H.
  - intros H. unfold classify. destruct (getCalledFunction callInst); [|done].
    destruct (N.eqb_spec (getCallingConv callInst) CallingConv_C); [done|].
    reflexivity.
  - intros Callee k HC Hname Hk Hsig.
    destruct (classify callInst) as [[F f]|] eqn:Hc; [|reflexivity].
    exfalso. apply classify_kind in Hc as (HF & _ & k' & _ & Hn & Hs).
    rewrite HC in HF. injection HF as <-. rewrite Hname in Hn.
    assert (k = k') by (destruct k, k'; simpl in Hn; congruence).
    subst k'. contradiction.
Qed.

(** ** The length reconciler *)

(** C3 (amended).  The terminator is appended (when the N = L + 1 rule
    did not add one) and the content is cut after its first zero byte for
    every comparison kind except memcmp, the bounded strncmp and
    strncasecmp included; for memcmp neither step is applied.  Here [s]
    and [n] are the content and the effective length after the explicit
    length has been read. *)
Theorem C3_terminator_step_by_kind (k : Kind) (s : bytes) (n : Z)
    (addedNull : bool) :
  0 <= n < 2 ^ 64 - 1 -> str_length s < 2 ^ 64 - 1 ->
  (addedNull = true -> NUL ∈ s) ->
  match k with
  | Memcmp => terminatorStep (flagsOf k) s n addedNull = (s, n)
  | Strcmp | Strcasecmp | Strncmp | Strncasecmp =>
      let s' := if addedNull then s else s ++ [NUL] in
      let n' := if addedNull then n else n + 1 in
      let m := Z.min n' (str_find s' NUL + 1) in
      terminatorStep (flagsOf k) s n addedNull = (take (Z.to_nat m) s', m)
  | IntMemcpy => True
  end.
Proof.
  intros Hn Hs Hnul.
  assert (Hgen : isMemcmp (flagsOf k) = false ->
    terminatorStep (flagsOf k) s n addedNull =
    (take (Z.to_nat (Z.min (if addedNull then n else n + 1)
        (str_find (if addedNull then s else s ++ [NUL]) NUL + 1)))
       (if addedNull then s else s ++ [NUL]),
     Z.min (if addedNull then n else n + 1)
        (str_find (if addedNull then s else s ++ [NUL]) NUL + 1))).
  { intros Hk. unfold terminatorStep. rewrite Hk. simpl.
    set (s' := if addedNull then s else s ++ [NUL]).
    set (n' := if addedNull then n else n + 1).
    assert (Hin : NUL ∈ s').
    { subst s'. destruct addedNull; [auto|]. apply elem_of_app. right.
      by apply list_elem_of_singleton. }
    assert (Hlen : str_length s' <= str_length s + 1).
    { subst s'. unfold str_length. destruct addedNull;
        rewrite ?length_app; simpl; lia. }
    pose proof (find_from_range s' NUL 0 Hin) as Hp.
    fold (str_find s' NUL) in Hp.
    replace (negb addedNull) with (negb addedNull) by reflexivity.
    destruct addedNull; simpl; fold s'.
    - subst n'. rewrite (wrap64_small (str_find s' NUL + 1)) by lia.
      rewrite substr0_take.
      destruct (Z.ltb_spec (str_find s' NUL + 1) n);
        [rewrite Z.min_r by lia|rewrite Z.min_l by lia]; reflexivity.
    - subst n'. rewrite (wrap64_small (n + 1)) by lia.
      rewrite (wrap64_small (str_find s' NUL + 1)) by lia.
      rewrite substr0_take.
      destruct (Z.ltb_spec (str_find s' NUL + 1) (n + 1));
        [rewrite Z.min_r by lia|rewrite Z.min_l by lia]; reflexivity. }
  destruct k; try exact I; try (apply Hgen; reflexivity).
  reflexivity.
Qed.

(** ** The resolver of the pass against the three rules *)

Lemma valueMap_index_spec (m : ValueMap) (k : positive) :
  (valueMap_index m k).2 = (match m !! k with Some p => p | None => None end)
  /\ forall k', binding (valueMap_index m k).1 k' = binding m k'.
Proof.
  unfold valueMap_index. destruct (m !! k) as [p|] eqn:Hk; simpl.
  - auto.
  - split; [reflexivity|]. intros k'. unfold binding.
    destruct (decide (k = k')) as [<-|Hne].
    + by rewrite lookup_insert_eq, Hk.
    + by rewrite lookup_insert_ne.
Qed.

Lemma literalStep_spec (T : bytes) (V : Value) :
  literalStep T V =
  let T' := match constantStringInfo V with Some s => s | None => T end in
  (T', match T' with [] => false | _ :: _ => true end, T').
Proof.
  unfold literalStep, getConstantStringInfo.
  destruct (constantStringInfo V) as [[|c s]|]; try reflexivity.
  destruct T; reflexivity.
Qed.

Lemma globalStep_spec (V : Value) (Has : bool) (Str : bytes) :
  globalStep V Has Str =
  if Has then (Has, Str)
  else match globalInitializer V with
       | Some g => (true, g)
       | None => (false, Str)
       end.
Proof.
  unfold globalStep, globalInitializer. destruct Has; simpl; [reflexivity|].
  destruct (kind V) as [[] [[[]|]|]| |]; reflexivity.
Qed.

Lemma localStep_spec (m : ValueMap) (V : Value) (Has : bool) (Str : bytes) :
  (forall k, binding (localStep m V Has Str).1.1 k = binding m k) /\
  ((localStep m V Has Str).1.2, (localStep m V Has Str).2) =
  if Has then (Has, Str)
  else match binding m (addr V) with
       | Some (c :: s) => (true, c :: s)
       | _ => (false, Str)
       end.
Proof.
  unfold localStep. destruct Has; simpl; [auto|].
  pose proof (valueMap_index_spec m (addr V)) as [H2 Hb].
  destruct (valueMap_index m (addr V)) as [m' strng]. simpl in *.
  subst strng. split.
  - destruct (m !! addr V) as [[[|c s]|]|]; exact Hb.
  - unfold binding. destruct (m !! addr V) as [[[|c s]|]|]; reflexivity.
Qed.

Ltac local_step :=
  match goal with
  | |- context [localStep ?m ?V ?h ?s] =>
      let H := fresh "H" in
      let Hb := fresh "Hb" in
      destruct (localStep_spec m V h s) as [Hb H];
      destruct (localStep m V h s) as [[? ?] ?]; simpl in H, Hb;
      repeat match goal with
             | Hx : forall k : positive, binding _ k = binding _ k |- _ =>
                 rewrite Hx in H
             end;
      try match type of H with
          | context [binding ?m0 ?k0] =>
              destruct (binding m0 k0) as [[|? ?]|]
          end;
      injection H as -> ->
  end.

(** What [analyzeCall] does at a comparison site, in terms of the three
    rules. *)
Lemma analyzeCall_compare (m : ValueMap) (callInst : CallInst)
    (Callee : Function) (f : Flags) (Str1P Str2P : Value) :
  classify callInst = Some (Callee, f) -> isIntMemcpy f = false ->
  getArgOperand callInst 0 = Some Str1P ->
  getArgOperand callInst 1 = Some Str2P ->
  (forall k, binding (analyzeCall m callInst).1 k = binding m k) /\
  (analyzeCall m callInst).2 =
  if xorb (specResolves m Str1P)
          (specResolves m Str2P || staleLiteral Str1P Str2P)
  then
    let thestring :=
      default [] (if specResolves m Str1P then specResolve m Str1P
                  else specResolve m Str2P) in
    match reconcile f callInst thestring with
    | None => BadOperand
    | Some (thestring, optLen) => Candidate (getName Callee) thestring optLen
    end
  else Skip.
Proof.
  intros Hc Hf H1 H2. unfold analyzeCall. rewrite Hc, H1, H2, Hf.
  unfold specResolves, specResolve, staleLiteral.
  rewrite literalStep_spec; cbv beta iota zeta.
  rewrite literalStep_spec; cbv beta iota zeta.
  rewrite (globalStep_spec Str2P).
  destruct (constantStringInfo Str1P) as [[|c1 s1]|];
    destruct (constantStringInfo Str2P) as [[|c2 s2]|];
    destruct (globalInitializer Str2P) as [g2|]; cbv beta iota zeta;
    local_step; cbv beta iota zeta;
    rewrite (globalStep_spec Str1P);
    destruct (globalInitializer Str1P) as [g1|]; cbv beta iota zeta;
    local_step; cbv beta iota zeta;
    simpl; rewrite ?orb_true_r, ?orb_false_r; simpl;
    (split;
     [try match goal with
          | |- context [reconcile ?a ?b ?c] =>
              destruct (reconcile a b c) as [[? ?]|]
          end; intros k; simpl;
      repeat match goal with
             | Hx : forall k : positive, binding _ k = binding _ k |- _ =>
                 rewrite Hx
             end; reflexivity
     |try reflexivity;
      match goal with
      | |- context [reconcile ?a ?b ?c] =>
          destruct (reconcile a b c) as [[? ?]|]; reflexivity
      end]).
Qed.

Lemma staleLiteral_resolves (m : ValueMap) (Str1P Str2P : Value) :
  staleLiteral Str1P Str2P = true -> specResolves m Str1P = true.
Proof.
  unfold staleLiteral, specResolves, specResolve.
  destruct (constantStringInfo Str1P) as [[|c s]|]; try discriminate.
  reflexivity.
Qed.

(** The flags of the pass select a candidate exactly when the rules
    resolve one operand and not the other, except that a stale literal
    turns "first only" into "both". *)
Lemma flags_xor (m : ValueMap) (Str1P Str2P : Value) :
  xorb (specResolves m Str1P)
       (specResolves m Str2P || staleLiteral Str1P Str2P)
  = xorb (specResolves m Str1P) (specResolves m Str2P)
    && negb (staleLiteral Str1P Str2P).
Proof.
  destruct (staleLiteral Str1P Str2P) eqn:Hs.
  - rewrite (staleLiteral_resolves m _ _ Hs).
    destruct (specResolves m Str2P); reflexivity.
  - rewrite orb_false_r, andb_true_r. reflexivity.
Qed.

Lemma written_setValueMap (w : World) (m : ValueMap) :
  written (setValueMap w m) = written w.
Proof. reflexivity. Qed.

Lemma written_wrote (w : World) (data : bytes) :
  written (wrote w data) = written w ++ [data].
Proof.
  unfold written, wrote; simpl. rewrite omap_app. simpl. reflexivity.
Qed.

(** C1.  At a comparison call site an entry is written only if exactly
    one of the two operands resolves to a byte sequence under the three
    rules; when both resolve or neither does, the site is skipped: the
    instruction writes nothing, counts nothing, and the scan goes on with
    the next instruction. *)
Theorem C1_exactly_one_operand_resolves (w : World) (callInst : CallInst)
    (Callee : Function) (f : Flags) (Str1P Str2P : Value)
    (rest : list Instruction) :
  classify callInst = Some (Callee, f) -> isIntMemcpy f = false ->
  getArgOperand callInst 0 = Some Str1P ->
  getArgOperand callInst 1 = Some Str2P ->
  (written (outcomeWorld (runOnInstruction w (Call callInst))) <> written w ->
   xorb (specResolves (valueMap w) Str1P)
        (specResolves (valueMap w) Str2P) = true)
  /\
  (xorb (specResolves (valueMap w) Str1P)
        (specResolves (valueMap w) Str2P) = false ->
   exists w', runOnInstruction w (Call callInst) = Running w' /\
     trace w' = trace w /\ found w' = found w /\
     runOnInstructions w (Call callInst :: rest) = runOnInstructions w' rest).
Proof.
  intros Hc Hf H1 H2.
  destruct (analyzeCall_compare (valueMap w) _ _ _ _ _ Hc Hf H1 H2)
    as [_ Hstep].
  rewrite flags_xor in Hstep.
  simpl. destruct (analyzeCall (valueMap w) callInst) as [m' step].
  simpl in Hstep. subst step.
  destruct (xorb (specResolves (valueMap w) Str1P)
                 (specResolves (valueMap w) Str2P)); simpl.
  - split; [reflexivity|discriminate].
  - split.
    + intros Hw. exfalso. apply Hw. reflexivity.
    + intros _. exists (setValueMap w m'). auto.
Qed.

(** ** Copy sites and the table *)

Lemma staticSource_spec (Str1P Str2P : Value) :
  staticSource Str1P Str2P =
  if staleLiteral Str1P Str2P then constantStringInfo Str1P
  else specResolveStatic Str2P.
Proof.
  unfold staticSource, staleLiteral, specResolveStatic.
  rewrite literalStep_spec; cbv beta iota zeta.
  rewrite literalStep_spec; cbv beta iota zeta.
  rewrite globalStep_spec.
  destruct (constantStringInfo Str1P) as [[|c1 s1]|];
    destruct (constantStringInfo Str2P) as [[|c2 s2]|]; simpl;
    try reflexivity; destruct (globalInitializer Str2P); reflexivity.
Qed.

(** What [analyzeCall] does at a call of the memcpy intrinsic. *)
Lemma analyzeCall_copy (m : ValueMap) (callInst : CallInst)
    (Callee : Function) (f : Flags) (Str1P Str2P : Value) :
  classify callInst = Some (Callee, f) -> isIntMemcpy f = true ->
  getArgOperand callInst 0 = Some Str1P ->
  getArgOperand callInst 1 = Some Str2P ->
  analyzeCall m callInst =
  match staticSource Str1P Str2P with
  | Some Str2 =>
      match getArgOperand callInst 2 with
      | Some op2 => (<[addr Str1P := Some (copyString Str2 op2)]> m, Skip)
      | None => (m, BadOperand)
      end
  | None => (m, Skip)
  end.
Proof.
  intros Hc Hf H1 H2. unfold analyzeCall, staticSource.
  rewrite Hc, H1, H2, Hf.
  destruct (literalStep [] Str1P) as [[T h1] s1].
  destruct (literalStep T Str2P) as [[T' h2] s2].
  destruct (globalStep Str2P h2 s2) as [h s]. destruct h; reflexivity.
Qed.

(** Lines 440-443 in closed form: [optLen] is reset to the length of the
    string whatever it was, then bounded by [MAX_AUTO_EXTRA]. *)
Lemma clampLen_spec (thestring : bytes) (optLen : Z) :
  clampLen thestring optLen =
  if Z.min (str_length thestring) MAX_AUTO_EXTRA <? MIN_AUTO_EXTRA then None
  else Some (Z.min (str_length thestring) MAX_AUTO_EXTRA).
Proof.
  unfold clampLen.
  replace (if negb (optLen =? str_length thestring)
           then str_length thestring else optLen)
    with (str_length thestring)
    by (destruct (Z.eqb_spec optLen (str_length thestring)); simpl; congruence).
  destruct (Z.ltb_spec MAX_AUTO_EXTRA (str_length thestring)).
  - rewrite Z.min_r by lia. reflexivity.
  - rewrite Z.min_l by lia. reflexivity.
Qed.

(** C9.  An operand whose constant string has length zero is not
    resolved by rule 1, as first or as second operand (whatever [TmpStr]
    held before); compared against an operand that does not resolve, it
    yields no candidate unless rule 2 or rule 3 resolves it; and with a
    positive lower bound every entry that is written has at least one
    byte. *)
Theorem C9_empty_literal_unresolved (m : ValueMap) (callInst : CallInst)
    (Callee : Function) (f : Flags) (Str1P Str2P V : Value) :
  constantStringInfo V = Some [] ->
  classify callInst = Some (Callee, f) -> isIntMemcpy f = false ->
  getArgOperand callInst 0 = Some Str1P ->
  getArgOperand callInst 1 = Some Str2P ->
  (forall TmpStr, literalStep TmpStr V = ([], false, [])) /\
  (V = Str1P \/ V = Str2P ->
   globalInitializer V = None -> binding m (addr V) = None ->
   specResolves m V = false /\
   (specResolves m Str1P = false -> specResolves m Str2P = false ->
    (analyzeCall m callInst).2 = Skip)) /\
  (forall thestring optLen n,
     0 < MIN_AUTO_EXTRA -> clampLen thestring optLen = Some n ->
     thestring <> [] /\ 0 < n).
Proof.
  intros HV Hc Hf H1 H2. split; [|split].
  - intros T. rewrite literalStep_spec, HV. reflexivity.
  - intros _ Hg Hb. split.
    + unfold specResolves, specResolve. rewrite HV, Hg, Hb. reflexivity.
    + intros Hr1 Hr2.
      destruct (analyzeCall_compare m _ _ _ _ _ Hc Hf H1 H2) as [_ ->].
      rewrite flags_xor, Hr1, Hr2. reflexivity.
  - intros s optLen n Hmin. rewrite clampLen_spec.
    destruct (Z.ltb_spec (Z.min (str_length s) MAX_AUTO_EXTRA) MIN_AUTO_EXTRA);
      intros [= <-].
    split; [|lia]. intros ->. unfold str_length in *. simpl in *. lia.
Qed.

Lemma emit_valueMap (w : World) (thestring : bytes) (optLen : Z) :
  valueMap (outcomeWorld (emit w thestring optLen)) = valueMap w.
Proof.
  unfold emit. destruct (diagTerminates thestring); simpl; [|reflexivity].
  destruct (clampLen thestring optLen) as [n|]; [|reflexivity].
  destruct (render (line w) thestring n) as [[line' data]|e]; [|reflexivity].
  simpl. destruct (fd_open w); reflexivity.
Qed.

(** A call of the memcpy intrinsic writes nothing to the file. *)
Lemma copy_site_silent (w : World) (callInst : CallInst) (Callee : Function)
    (f : Flags) :
  classify callInst = Some (Callee, f) -> isIntMemcpy f = true ->
  trace (outcomeWorld (runOnInstruction w (Call callInst))) = trace w /\
  found (outcomeWorld (runOnInstruction w (Call callInst))) = found w.
Proof.
  intros Hc Hf. simpl.
  destruct (getArgOperand callInst 0) as [Str1P|] eqn:H1;
    [destruct (getArgOperand callInst 1) as [Str2P|] eqn:H2|].
  - rewrite (analyzeCall_copy _ _ _ _ _ _ Hc Hf H1 H2).
    destruct (staticSource Str1P Str2P); [|auto].
    destruct (getArgOperand callInst 2); auto.
  - unfold analyzeCall. rewrite Hc, H1, H2. auto.
  - unfold analyzeCall. rewrite Hc, H1. auto.
Qed.

(** C7.  At a call of the memcpy intrinsic whose source resolves by rule 1
    or 2 to a string [s] and whose length operand is the constant
    [length s + 1], the table afterwards binds the destination to [s]
    followed by exactly one zero byte, whatever it bound before, in every
    case but one: when the destination is itself a non-empty string literal
    and the constant-string analysis of the source fails, [TmpStr] still
    holds the literal of the destination, the global step is not tried, and
    what is saved is that literal, with a zero byte only if the length
    operand is its own length plus one.  The call writes no entry, whether
    its source resolves or not. *)
Theorem C7_copy_site_saves_source_unless_stale (w : World)
    (callInst : CallInst) (Callee : Function) (f : Flags) :
  classify callInst = Some (Callee, f) -> isIntMemcpy f = true ->
  (forall (Str1P Str2P op2 : Value) (s : bytes) (N : Z),
     getArgOperand callInst 0 = Some Str1P ->
     getArgOperand callInst 1 = Some Str2P ->
     getArgOperand callInst 2 = Some op2 ->
     specResolveStatic Str2P = Some s ->
     kind op2 = ConstantInt N -> N = str_length s + 1 ->
     runOnInstruction w (Call callInst) =
     Running (setValueMap w
       (<[addr Str1P :=
            Some (match constantStringInfo Str1P, constantStringInfo Str2P with
                  | Some (c :: t), None =>
                      if wrap64 (str_length (c :: t) + 1) =? wrap64 N
                      then (c :: t) ++ [NUL] else c :: t
                  | _, _ => s ++ [NUL]
                  end)]> (valueMap w))))
  /\ written (outcomeWorld (runOnInstruction w (Call callInst))) = written w
  /\ found (outcomeWorld (runOnInstruction w (Call callInst))) = found w.
Proof.
  intros Hc Hf. split.
  - intros Str1P Str2P op2 s N H1 H2 H3 Hs Hk HN. simpl.
    rewrite (analyzeCall_copy _ _ _ _ _ _ Hc Hf H1 H2), staticSource_spec, H3.
    assert (Hgood : copyString s op2 = s ++ [NUL]).
    { unfold copyString. rewrite Hk, HN, Z.eqb_refl. reflexivity. }
    unfold staleLiteral.
    destruct (constantStringInfo Str1P) as [[|c t]|];
      destruct (constantStringInfo Str2P) as [s2|];
      rewrite ?Hs, ?Hgood; try reflexivity.
    unfold copyString. rewrite Hk. reflexivity.
  - destruct (copy_site_silent w _ _ _ Hc Hf) as [Ht Hn].
    split; [|exact Hn]. unfold written. by rewrite Ht.
Qed.

(** One instruction changes the binding of [d] only by a copy into [d]. *)
Lemma runOnInstruction_binding (w w' : World) (IN : Instruction)
    (d : positive) :
  runOnInstruction w IN = Running w' ->
  binding (valueMap w') d =
  match copyInto d IN with
  | Some s => Some s
  | None => binding (valueMap w) d
  end.
Proof.
  destruct IN as [callInst|]; [|by intros [= <-]].
  unfold copyInto, copySite. simpl.
  destruct (classify callInst) as [[Callee f]|] eqn:Hc.
  2:{ unfold analyzeCall. rewrite Hc. by intros [= <-]. }
  unfold getArgOperand in *.
  destruct (args callInst) as [|Str1P [|Str2P rest]] eqn:Hargs.
  1,2: unfold analyzeCall, getArgOperand; rewrite Hc, Hargs; simpl;
    destruct (isIntMemcpy f); discriminate.
  assert (H1 : getArgOperand callInst 0 = Some Str1P)
    by (unfold getArgOperand; by rewrite Hargs).
  assert (H2 : getArgOperand callInst 1 = Some Str2P)
    by (unfold getArgOperand; by rewrite Hargs).
  destruct (isIntMemcpy f) eqn:Hf.
  - rewrite (analyzeCall_copy _ _ _ _ _ _ Hc Hf H1 H2).
    unfold getArgOperand. rewrite Hargs.
    destruct (staticSource Str1P Str2P) as [s|];
      [|destruct rest; by intros [= <-]].
    destruct rest as [|op2 rest]; simpl; [discriminate|].
    intros [= <-]. simpl. unfold binding.
    destruct (decide (addr Str1P = d)) as [<-|Hne].
    + by rewrite lookup_insert_eq.
    + by rewrite lookup_insert_ne.
  - destruct (analyzeCall_compare (valueMap w) _ _ _ _ _ Hc Hf H1 H2)
      as [Hb _].
    destruct (analyzeCall (valueMap w) callInst) as [m' step]. simpl in Hb.
    destruct step as [|name s n|]; [| |discriminate].
    + intros [= <-]. simpl. apply Hb.
    + intros He. rewrite <- Hb.
      pose proof (emit_valueMap (setValueMap w m') s n) as Hv.
      rewrite He in Hv. simpl in Hv. by rewrite Hv.
Qed.

Lemma runOnInstructions_binding (INs : list Instruction) (w w' : World)
    (d : positive) :
  runOnInstructions w INs = Running w' ->
  binding (valueMap w') d =
  match lastCopy d INs with
  | Some s => Some s
  | None => binding (valueMap w) d
  end.
Proof.
  revert w. induction INs as [|IN rest IH]; intros w Hrun; simpl in *.
  - by injection Hrun as <-.
  - destruct (runOnInstruction w IN) as [w1| | | |] eqn:H1; try discriminate.
    rewrite (IH _ Hrun).
    destruct (lastCopy d rest); [reflexivity|].
    by apply runOnInstruction_binding.
Qed.

Lemma lastCopy_app (d : positive) (l1 l2 : list Instruction) :
  lastCopy d (l1 ++ l2) =
  match lastCopy d l2 with
  | Some s => Some s
  | None => lastCopy d l1
  end.
Proof.
  induction l1 as [|IN rest IH]; simpl.
  - destruct (lastCopy d l2); reflexivity.
  - rewrite IH. destruct (lastCopy d l2); reflexivity.
Qed.

(** The table is one for the whole module: a binding made in one function
    is still there in the functions scanned after it. *)
Lemma table_persists_across_functions (M : list FunctionDef) (w w' : World)
    (d : positive) :
  runOnFunctions w M = Running w' ->
  binding (valueMap w') d =
  match lastCopy d (moduleInstructions M) with
  | Some s => Some s
  | None => binding (valueMap w) d
  end.
Proof.
  revert w. induction M as [|F rest IH]; intros w Hrun; simpl in *.
  - by injection Hrun as <-.
  - unfold runOnFunction in Hrun. unfold moduleInstructions, scanned. simpl.
    fold (scanned rest).
    destruct (isIgnoreFunction (fn F)); simpl.
    + by apply IH.
    + destruct (runOnInstructions w (concat (blocks F))) as [w1| | | |] eqn:H1;
        try discriminate.
      fold (moduleInstructions rest). rewrite lastCopy_app.
      rewrite (IH _ Hrun). simpl.
      destruct (lastCopy d (moduleInstructions rest)); [reflexivity|].
      by apply runOnInstructions_binding.
Qed.

(** C6.  After any run of instructions the table binds a reference [d]
    to the string saved by the latest copy into [d] among them, whatever
    was bound before, and keeps the earlier binding only when there was no
    such copy; a later operand with this reference that is neither a
    literal nor a global resolves to that string. *)
Theorem C6_latest_copy_wins (w w' : World) (INs : list Instruction)
    (d : positive) :
  runOnInstructions w INs = Running w' ->
  binding (valueMap w') d =
    match lastCopy d INs with
    | Some s => Some s
    | None => binding (valueMap w) d
    end
  /\ forall (V : Value) (c : ascii) (s : bytes),
       addr V = d -> specResolveStatic V = None ->
       lastCopy d INs = Some (c :: s) ->
       specResolve (valueMap w') V = Some (c :: s).
Proof.
  intros Hrun.
  pose proof (runOnInstructions_binding INs w w' d Hrun) as Hbind.
  split; [exact Hbind|].
  intros V c s Haddr Hstatic Hlast. rewrite Hlast in Hbind.
  unfold specResolve. unfold specResolveStatic in Hstatic.
  destruct (constantStringInfo V) as [[|c' s']|]; try discriminate;
    rewrite Hstatic, Haddr, Hbind; reflexivity.
Qed.

(** ** The line buffer *)

Lemma poke_ok (buf : bytes) (k : nat) (c : ascii) :
  (k < length buf)%nat -> poke buf k c = Ok (<[k := c]> buf).
Proof.
  intros Hk. unfold poke.
  destruct (Nat.ltb_spec k (length buf)); [reflexivity|lia].
Qed.

(** Stores that fit succeed; they leave the size of the array and the
    bytes before the first store as they were. *)
Lemma pokes_ok (s buf : bytes) (k : nat) :
  (k + length s <= length buf)%nat ->
  exists buf', pokes buf k s = Ok buf' /\ length buf' = length buf /\
    take k buf' = take k buf /\
    take (k + length s) buf' = take k buf ++ s.
Proof.
  revert buf k. induction s as [|c r IH]; intros buf k Hk; simpl in *.
  - exists buf. rewrite Nat.add_0_r, app_nil_r. auto.
  - rewrite poke_ok by lia. simpl.
    destruct (IH (<[k := c]> buf) (S k)) as (buf' & -> & Hlen & Hpre & Hall).
    { rewrite length_insert. lia. }
    rewrite length_insert in Hlen.
    assert (Hk1 : take (S k) (<[k := c]> buf) = take k buf ++ [c]).
    { rewrite (take_S_r _ _ c) by (apply list_lookup_insert_eq; lia).
      by rewrite take_insert_ge by lia. }
    exists buf'. split; [reflexivity|]. split; [exact Hlen|]. split.
    + replace k with (Nat.min k (S k)) at 1 by lia.
      rewrite <- take_take, Hpre, Hk1, take_app_length'; [reflexivity|].
      rewrite length_take. lia.
    + replace (k + S (length r))%nat with (S k + length r)%nat by lia.
      rewrite Hall, Hk1, <- app_assoc. reflexivity.
Qed.

Lemma strlen_from_app (pre post : bytes) (k : nat) :
  Forall (fun c => c <> NUL) pre ->
  strlen_from (pre ++ NUL :: post) k = Ok (k + length pre)%nat.
Proof.
  revert k. induction pre as [|c r IH]; intros k Hpre; simpl.
  - by rewrite Nat.add_0_r.
  - apply Forall_cons in Hpre as [Hc Hr].
    destruct (Ascii.eqb_spec c NUL); [contradiction|].
    rewrite IH by assumption. f_equal. lia.
Qed.

(** The length of the C string in [buf] when its first [j] bytes are not
    zero and the next one is. *)
Lemma strlen_at (buf : bytes) (j : nat) :
  Forall (fun c => c <> NUL) (take j buf) -> buf !! j = Some NUL ->
  strlen buf = Ok j.
Proof.
  intros Hpre Hj. unfold strlen.
  rewrite <- (take_drop j buf) at 1. rewrite (drop_S _ _ _ Hj).
  rewrite strlen_from_app by assumption. simpl.
  rewrite length_take. f_equal.
  apply lookup_lt_Some in Hj. lia.
Qed.

Lemma isprint_not_NUL (c : ascii) : isprint c = true -> c <> NUL.
Proof. intros H ->. discriminate. Qed.

(** [strcat] onto a string of length [j], when there is room. *)
Lemma strcat_ok (buf s : bytes) (j : nat) :
  Forall (fun c => c <> NUL) (take j buf) -> buf !! j = Some NUL ->
  (j + length s + 1 <= length buf)%nat ->
  exists buf', strcat buf s = Ok buf' /\ length buf' = length buf /\
    take j buf' = take j buf /\
    take (j + length s + 1) buf' = take j buf ++ s ++ [NUL].
Proof.
  intros Hpre Hj Hroom. unfold strcat. rewrite (strlen_at _ _ Hpre Hj). simpl.
  destruct (pokes_ok (s ++ [NUL]) buf j) as (buf' & -> & Hlen & Hp & Hall).
  { rewrite length_app. simpl. lia. }
  exists buf'. rewrite length_app in Hall. simpl in Hall.
  rewrite Nat.add_assoc in Hall. auto.
Qed.

(** ** Rendering *)

(** The escape is a backslash, an x and two hexadecimal digits, unless
    [char] is signed and the byte is 0x80 or more: the promoted value is
    negative then, [%02x] prints eight digits, and the eleven bytes do not
    fit the eight of [tmp]. *)
Lemma sprintf_tmp_spec (c : ascii) :
  sprintf_tmp c =
  if char_signed && (128 <=? N_of_ascii c)%N then Fault TmpOverrun
  else Ok (lit "\x" ++ [hexdigit (Z.of_N (N_of_ascii c) / 16);
                        hexdigit (Z.of_N (N_of_ascii c) mod 16)]).
Proof.
  unfold sprintf_tmp, charToInt.
  destruct char_signed; destruct c as [[] [] [] [] [] [] [] []];
    vm_compute; reflexivity.
Qed.

Lemma sprintf_tmp_cases (c : ascii) :
  (sprintf_tmp c = Fault TmpOverrun /\ char_signed = true /\
   (128 <= N_of_ascii c)%N) \/
  exists e, sprintf_tmp c = Ok e /\ length e = 4%nat.
Proof.
  rewrite sprintf_tmp_spec. destruct char_signed; simpl.
  - destruct (N.leb_spec 128 (N_of_ascii c)); [left; auto|right; eauto].
  - right; eauto.
Qed.

(** The loop never advances [j] past an escape: whatever it appends after
    [line[j]] is overwritten by the next store at [j].  When the loop is
    done the first [j] bytes of [line] are the quote and the printable
    bytes seen, in order, and nothing else. *)
Lemma renderLoop_spec (ptr : bytes) :
  forall (i optLen : Z) (line : bytes) (j : nat) (printed : bytes),
    take j line = DQUOTE :: printed ->
    Forall (fun c => c <> NUL) printed ->
    (j + length ptr + 4 <= length line)%nat ->
    (renderLoop ptr i optLen line j = Fault TmpOverrun /\
     char_signed = true /\ Exists (fun c => (128 <= N_of_ascii c)%N) ptr) \/
    exists line',
      renderLoop ptr i optLen line j =
        Ok (line', (j + length (List.filter isprint ptr))%nat) /\
      length line' = length line /\
      take (j + length (List.filter isprint ptr)) line' =
        DQUOTE :: printed ++ List.filter isprint ptr.
Proof.
  induction ptr as [|c rest IH]; intros i optLen line j printed Hpre Hnz Hroom;
    simpl in *.
  - right. exists line. rewrite Nat.add_0_r, app_nil_r. auto.
  - destruct (isprint c) eqn:Hc.
    + rewrite poke_ok by lia. simpl.
      destruct (IH (i + 1) optLen (<[j := c]> line) (S j) (printed ++ [c]))
        as [(HF & Hcs & Hex)|(line' & Hrun & Hlen & Htake)].
      * rewrite (take_S_r _ _ c) by (apply list_lookup_insert_eq; lia).
        rewrite take_insert_ge by lia. rewrite Hpre. reflexivity.
      * apply Forall_app. split; [assumption|].
        apply Forall_singleton. by apply isprint_not_NUL.
      * rewrite length_insert. lia.
      * left. auto using Exists_cons_tl.
      * right. exists line'. rewrite length_insert in Hlen. simpl.
        replace (j + S (length (List.filter isprint rest)))%nat
          with (S j + length (List.filter isprint rest))%nat by lia.
        rewrite Hrun, Htake, <- app_assoc. auto.
    + destruct (negb (i + 1 =? optLen) || negb (Ascii.eqb c NUL)).
      * rewrite poke_ok by lia. simpl.
        destruct (sprintf_tmp_cases c) as [(-> & Hcs & H128)|(e & -> & He)].
        { left. auto using Exists_cons_hd. }
        simpl.
        destruct (strcat_ok (<[j := NUL]> line) e j)
          as (line1 & -> & Hlen1 & Hpre1 & _).
        { rewrite take_insert_ge, Hpre by lia. constructor; [discriminate|].
          assumption. }
        { apply list_lookup_insert_eq. lia. }
        { rewrite length_insert. lia. }
        simpl. rewrite length_insert in Hlen1.
        rewrite take_insert_ge in Hpre1 by lia.
        destruct (IH (i + 1) optLen line1 j printed)
          as [(HF & Hcs & Hex)|(line' & Hrun & Hlen & Htake)];
          [congruence|assumption|lia| |].
        -- left. auto using Exists_cons_tl.
        -- right. exists line'. rewrite Hrun, Hlen, Htake. auto.
      * destruct (IH (i + 1) optLen line j printed)
          as [(HF & Hcs & Hex)|(line' & Hrun & Hlen & Htake)];
          [assumption|assumption|lia| |].
        -- left. auto using Exists_cons_tl.
        -- right. exists line'. auto.
Qed.

(** The bytes handed to [write]: the quote, the printable bytes among
    the first [optLen] bytes of the string, the quote and a line feed.  No
    escape sequence is among them. *)
Lemma render_spec (line thestring : bytes) (optLen : Z) :
  (length (substr0 thestring optLen) + 5 <= length line)%nat ->
  (render line thestring optLen = Fault TmpOverrun /\ char_signed = true /\
   Exists (fun c => (128 <= N_of_ascii c)%N) (substr0 thestring optLen)) \/
  exists line',
    render line thestring optLen =
      Ok (line', DQUOTE :: List.filter isprint (substr0 thestring optLen)
                   ++ [DQUOTE; LF]) /\
    length line' = length line.
Proof.
  intros Hroom. unfold render, strcpy.
  destruct (pokes_ok ([DQUOTE] ++ [NUL]) line 0)
    as (line1 & -> & Hlen1 & _ & Htake1); [simpl; lia|].
  simpl in Htake1. simpl.
  set (ptr := substr0 thestring optLen) in *.
  destruct (renderLoop_spec ptr 0 optLen line1 1 [])
    as [(-> & Hcs & Hex)|(line2 & -> & Hlen2 & Htake2)].
  { replace 1%nat with (Nat.min 1 2) by reflexivity.
    by rewrite <- take_take, Htake1. }
  { constructor. }
  { lia. }
  { left. auto. }
  right. simpl. simpl in Htake2.
  set (printed := List.filter isprint ptr) in *.
  assert (Hp : (length printed <= length ptr)%nat)
    by apply List.filter_length_le.
  remember (S (length printed)) as j eqn:Hj.
  rewrite poke_ok by lia. simpl.
  assert (Hnz : Forall (fun c => c <> NUL) (DQUOTE :: printed)).
  { constructor; [discriminate|]. apply Forall_forall. intros c Hc.
    apply list_elem_of_In, List.filter_In in Hc as [_ Hc].
    by apply isprint_not_NUL. }
  destruct (strcat_ok (<[j := NUL]> line2) [DQUOTE; LF] j)
    as (line3 & -> & Hlen3 & _ & Htake3).
  { by rewrite take_insert_ge, Htake2 by lia. }
  { apply list_lookup_insert_eq. lia. }
  { rewrite length_insert. simpl. lia. }
  change (length [DQUOTE; LF]) with 2%nat in Htake3.
  change ([DQUOTE; LF] ++ [NUL]) with [DQUOTE; LF; NUL] in Htake3.
  rewrite take_insert_ge, Htake2 in Htake3 by lia.
  rewrite length_insert in Hlen3. cbn [bind].
  assert (Hout : take (j + 2) line3 = DQUOTE :: printed ++ [DQUOTE; LF]).
  { replace (j + 2)%nat with (Nat.min (j + 2) (j + 2 + 1)) by lia.
    rewrite <- take_take, Htake3.
    change (DQUOTE :: printed ++ [DQUOTE; LF; NUL])
      with ((DQUOTE :: printed) ++ [DQUOTE; LF; NUL]).
    rewrite take_app. simpl length.
    replace (j + 2 - S (length printed))%nat with 2%nat by lia.
    rewrite take_ge by (simpl; lia). reflexivity. }
  rewrite (strlen_at line3 (j + 2)).
  - simpl. exists line3. rewrite Hout. split; [reflexivity|]. lia.
  - rewrite Hout. change (DQUOTE :: printed ++ [DQUOTE; LF])
      with ((DQUOTE :: printed) ++ [DQUOTE; LF]).
    apply Forall_app. split; [assumption|].
    repeat constructor; discriminate.
  - assert (H : take (j + 2 + 1) line3 !! (j + 2)%nat = Some NUL).
    { rewrite Htake3.
      change (DQUOTE :: printed ++ [DQUOTE; LF; NUL])
        with ((DQUOTE :: printed) ++ [DQUOTE; LF; NUL]).
      rewrite lookup_app_r by (simpl; lia).
      replace (j + 2 - length (DQUOTE :: printed))%nat with 2%nat
        by (simpl; lia).
      reflexivity. }
    rewrite lookup_take_lt in H by lia. exact H.
Qed.

(** ** The emitter *)

(** When the diagnostic loop ends, the descriptor is open and rendering
    is defined, the line is written. *)
Lemma emit_writes (w : World) (thestring line' data : bytes) (optLen n : Z) :
  diagTerminates thestring = true -> fd_open w = true ->
  clampLen thestring optLen = Some n ->
  render (line w) thestring n = Ok (line', data) ->
  emit w thestring optLen = Running (wrote (setLine w line') data).
Proof.
  intros Hd Hfd Hc Hr. unfold emit. rewrite Hd, Hc, Hr. simpl.
  by rewrite Hfd.
Qed.

(** What [emit] can do to the trace: nothing, or one write and one sync. *)
Lemma emit_trace (w : World) (thestring : bytes) (optLen : Z) :
  let o := emit w thestring optLen in
  fd_open (outcomeWorld o) = fd_open w /\
  (trace (outcomeWorld o) = trace w /\ found (outcomeWorld o) = found w \/
   exists n line' data,
     clampLen thestring optLen = Some n /\
     render (line w) thestring n = Ok (line', data) /\
     o = Running (wrote (setLine w line') data)).
Proof.
  unfold emit. destruct (diagTerminates thestring); simpl; [|auto].
  destruct (clampLen thestring optLen) as [n|]; [|auto].
  destruct (render (line w) thestring n) as [[line' data]|e] eqn:Hr; [|auto].
  simpl. destruct (fd_open w) eqn:Hfd; simpl; [|auto].
  split; [auto|]. right. exists n, line', data. auto.
Qed.

(** C2.  Whatever [optLen] was, an entry is written only for the length
    [n] that is the true length of the content cut down to
    [MAX_AUTO_EXTRA]; [n] lies between the two bounds; the bytes rendered
    are the first [n] bytes of the content, exactly [n] of them; and a
    content shorter than [MIN_AUTO_EXTRA] writes nothing. *)
Theorem C2_entry_length_within_bounds (w : World) (thestring : bytes)
    (optLen : Z) :
  0 <= MIN_AUTO_EXTRA ->
  (written (outcomeWorld (emit w thestring optLen)) <> written w ->
   exists n line' data,
     clampLen thestring optLen = Some n /\
     n = Z.min (str_length thestring) MAX_AUTO_EXTRA /\
     MIN_AUTO_EXTRA <= n <= MAX_AUTO_EXTRA /\
     str_length (substr0 thestring n) = n /\
     render (line w) thestring n = Ok (line', data) /\
     written (outcomeWorld (emit w thestring optLen)) = written w ++ [data])
  /\
  (str_length thestring < MIN_AUTO_EXTRA ->
   written (outcomeWorld (emit w thestring optLen)) = written w /\
   found (outcomeWorld (emit w thestring optLen)) = found w).
Proof.
  intros Hmin. split.
  - intros Hw.
    destruct (emit_trace w thestring optLen)
      as [_ [[Ht _]|(n & line' & data & Hc & Hr & He)]].
    { exfalso. apply Hw. unfold written. by rewrite Ht. }
    exists n, line', data. rewrite He. simpl. rewrite written_wrote.
    rewrite clampLen_spec in Hc.
    destruct (Z.ltb_spec (Z.min (str_length thestring) MAX_AUTO_EXTRA)
                MIN_AUTO_EXTRA) as [|Hge]; [discriminate|].
    injection Hc as <-. rewrite clampLen_spec.
    destruct (Z.ltb_spec (Z.min (str_length thestring) MAX_AUTO_EXTRA)
                MIN_AUTO_EXTRA); [lia|].
    repeat split; try lia; try assumption.
    apply substr0_length. lia.
  - intros Hshort.
    destruct (emit_trace w thestring optLen)
      as [_ [[Ht Hf]|(n & line' & data & Hc & _)]].
    + split; [|exact Hf]. unfold written. by rewrite Ht.
    + rewrite clampLen_spec in Hc.
      destruct (Z.ltb_spec (Z.min (str_length thestring) MAX_AUTO_EXTRA)
                  MIN_AUTO_EXTRA); [discriminate|lia].
Qed.

(** C4.  The rendering the pass writes, for any string and any length
    that fits the buffer: a double quote, then only those of the first
    [optLen] bytes that [isprint] accepts (the codes 32 to 126, the space
    included), verbatim, then a double quote and a line feed.  Every
    other byte is left out: the escape sprintf builds for it is placed at
    [line[j]] without advancing [j], and the next store at [line[j]]
    overwrites it. *)
Theorem C4_rendering_drops_unprintable_bytes (line thestring : bytes)
    (optLen : Z) (line' data : bytes) :
  0 <= optLen <= str_length thestring ->
  (Z.to_nat optLen + 5 <= length line)%nat ->
  render line thestring optLen = Ok (line', data) ->
  data = DQUOTE :: List.filter isprint (substr0 thestring optLen)
           ++ [DQUOTE; LF].
Proof.
  intros Hlen Hroom Hr.
  destruct (render_spec line thestring optLen)
    as [(HF & _)|(line1 & Hok & _)]; [|congruence..].
  rewrite substr0_take, length_take. lia.
Qed.

(** Rendering an accepted candidate into an array of [MAX_AUTO_EXTRA * 8]
    bytes does not fault on that array. *)
Lemma render_in_bounds (line thestring : bytes) (optLen n : Z) :
  0 < MAX_AUTO_EXTRA ->
  length line = Z.to_nat (MAX_AUTO_EXTRA * 8) ->
  clampLen thestring optLen = Some n ->
  (exists line' data, render line thestring n = Ok (line', data) /\
      length line' = length line /\ (length data + 1 <= length line)%nat /\
      data = DQUOTE :: List.filter isprint (substr0 thestring n)
               ++ [DQUOTE; LF]) \/
  (render line thestring n = Fault TmpOverrun /\ char_signed = true /\
   Exists (fun c => (128 <= N_of_ascii c)%N) thestring).
Proof.
  intros Hmax Hlen Hc. rewrite clampLen_spec in Hc.
  destruct (Z.ltb_spec (Z.min (str_length thestring) MAX_AUTO_EXTRA)
              MIN_AUTO_EXTRA) as [|Hge]; [discriminate|].
  injection Hc as <-.
  set (n := Z.min (str_length thestring) MAX_AUTO_EXTRA) in *.
  assert (Hn : (length (substr0 thestring n) <= Z.to_nat MAX_AUTO_EXTRA)%nat).
  { rewrite substr0_take, length_take. subst n. lia. }
  destruct (render_spec line thestring n)
    as [(HF & Hcs & Hex)|(line' & Hok & Hlen')]; [lia| |].
  - right. split; [assumption|]. split; [assumption|].
    rewrite substr0_take in Hex. apply Exists_exists in Hex as (c & Hin & Hc).
    apply Exists_exists. exists c. split; [|assumption].
    exact (subseteq_take _ _ _ Hin).
  - left. exists line'. eexists. split; [exact Hok|]. split; [assumption|].
    split; [|reflexivity]. simpl. rewrite length_app. simpl.
    pose proof (List.filter_length_le isprint (substr0 thestring n)). lia.
Qed.

(** C10.  With a positive [MAX_AUTO_EXTRA] and [line] an array of
    [MAX_AUTO_EXTRA * 8] bytes, rendering an accepted candidate never
    stores into [line] out of its bounds, nor reads past its end: it
    either completes, leaving the array at its size, with the written
    line and its terminator inside the array, or it stops at the overflow
    of the other buffer, [tmp], which happens only where [char] is signed
    and the string has a byte of 0x80 or more. *)
Theorem C10_line_buffer_never_overrun (line thestring : bytes)
    (optLen n : Z) :
  0 < MAX_AUTO_EXTRA ->
  length line = Z.to_nat (MAX_AUTO_EXTRA * 8) ->
  clampLen thestring optLen = Some n ->
  render line thestring n <> Fault LineOverrun /\
  render line thestring n <> Fault LineOverread /\
  ((exists line' data, render line thestring n = Ok (line', data) /\
      length line' = length line /\ (length data + 1 <= length line)%nat) \/
   (render line thestring n = Fault TmpOverrun /\ char_signed = true /\
    Exists (fun c => (128 <= N_of_ascii c)%N) thestring)).
Proof.
  intros Hmax Hlen Hc.
  destruct (render_in_bounds line thestring optLen n Hmax Hlen Hc)
    as [(line' & data & Hr & Hl & Hd & _)|(Hr & Hcs & Hex)]; rewrite Hr.
  - split; [discriminate|]. split; [discriminate|]. left. eauto.
  - split; [discriminate|]. split; [discriminate|]. right. auto.
Qed.

(** ** The descriptor *)

Lemma closes_app (t u : list Event) :
  closes (t ++ u) = (closes t + closes u)%nat.
Proof. unfold closes. by rewrite List.filter_app, length_app. Qed.

(** Scanning instructions never closes the descriptor. *)
Lemma runOnInstruction_fd (w : World) (IN : Instruction) :
  fd_open (outcomeWorld (runOnInstruction w IN)) = fd_open w /\
  closes (trace (outcomeWorld (runOnInstruction w IN))) = closes (trace w).
Proof.
  destruct IN as [callInst|]; simpl; [|auto].
  destruct (analyzeCall (valueMap w) callInst) as [m [|name s n|]]; simpl;
    [auto| |auto].
  destruct (emit_trace (setValueMap w m) s n)
    as [Hfd [[Ht _]|(k & line' & data & _ & _ & He)]].
  - simpl in *. rewrite Hfd, Ht. auto.
  - simpl in *. rewrite He. simpl. rewrite closes_app. simpl. auto.
Qed.

Lemma runOnInstructions_fd (INs : list Instruction) (w : World) :
  fd_open (outcomeWorld (runOnInstructions w INs)) = fd_open w /\
  closes (trace (outcomeWorld (runOnInstructions w INs))) = closes (trace w).
Proof.
  revert w. induction INs as [|IN rest IH]; intros w; simpl; [auto|].
  pose proof (runOnInstruction_fd w IN) as [Hfd Hcl].
  destruct (runOnInstruction w IN) as [w1| | | |]; simpl in *; auto.
  destruct (IH w1) as [Hfd1 Hcl1]. split; congruence.
Qed.


(** Once the descriptor is closed nothing more reaches the file: a later
    function with an entry to write ends the run in [Fatal]. *)
Lemma closed_descriptor_writes_nothing (M : list FunctionDef) (w : World) :
  fd_open w = false ->
  written (outcomeWorld (runOnFunctions w M)) = written w.
Proof.
  assert (Hemit : forall w s n, fd_open w = false ->
            trace (outcomeWorld (emit w s n)) = trace w).
  { intros w0 s n Hfd.
    destruct (emit_trace w0 s n) as [_ [[Ht _]|(k & l & d & Hk & Hr & He)]];
      [exact Ht|].
    unfold emit in He. rewrite Hk, Hr in He. simpl in He. rewrite Hfd in He.
    destruct (diagTerminates s); discriminate. }
  assert (Hins : forall INs w, fd_open w = false ->
            trace (outcomeWorld (runOnInstructions w INs)) = trace w).
  { induction INs as [|IN rest IH]; intros w0 Hfd; simpl; [reflexivity|].
    pose proof (runOnInstruction_fd w0 IN) as [Hfd1 _].
    assert (Ht : trace (outcomeWorld (runOnInstruction w0 IN)) = trace w0).
    { destruct IN as [callInst|]; simpl; [|reflexivity].
      destruct (analyzeCall (valueMap w0) callInst) as [m [|name s n|]];
        simpl; try reflexivity.
      by rewrite Hemit. }
    destruct (runOnInstruction w0 IN) as [w1| | | |]; simpl in *; auto.
    rewrite IH by congruence. exact Ht. }
  revert w. induction M as [|F rest IH]; intros w Hfd; simpl; [reflexivity|].
  unfold runOnFunction. destruct (isIgnoreFunction (fn F)); [by apply IH|].
  pose proof (Hins (concat (blocks F)) w Hfd) as Ht.
  pose proof (runOnInstructions_fd (concat (blocks F)) w) as [Hfd1 _].
  destruct (runOnInstructions w (concat (blocks F))) as [w1| | | |];
    simpl in *; try (unfold written; by rewrite Ht).
  rewrite IH by reflexivity. unfold written, closed. simpl.
  rewrite omap_app, Ht. simpl. by rewrite app_nil_r.
Qed.

(** ** The run as a whole *)

Lemma poke_length (buf buf' : bytes) (k : nat) (c : ascii) :
  poke buf k c = Ok buf' -> length buf' = length buf.
Proof.
  unfold poke. destruct (k <? length buf)%nat; [|discriminate].
  intros [= <-]. apply length_insert.
Qed.

Lemma pokes_length (s buf buf' : bytes) (k : nat) :
  pokes buf k s = Ok buf' -> length buf' = length buf.
Proof.
  revert buf k. induction s as [|c r IH]; intros buf k; simpl.
  - by intros [= <-].
  - destruct (poke buf k c) as [buf1|] eqn:Hp; simpl; [|discriminate].
    intros H. apply IH in H. apply poke_length in Hp. congruence.
Qed.

Lemma strcat_length (buf buf' s : bytes) :
  strcat buf s = Ok buf' -> length buf' = length buf.
Proof.
  unfold strcat. destruct (strlen buf); simpl; [|discriminate].
  apply pokes_length.
Qed.

Lemma renderLoop_length (ptr : bytes) :
  forall (i optLen : Z) (line line' : bytes) (j j' : nat),
    renderLoop ptr i optLen line j = Ok (line', j') ->
    length line' = length line.
Proof.
  induction ptr as [|c rest IH]; intros i optLen line line' j j'; simpl.
  - by intros [= <- _].
  - destruct (isprint c).
    + destruct (poke line j c) as [l1|] eqn:H1; simpl; [|discriminate].
      intros H. apply IH in H. apply poke_length in H1. congruence.
    + destruct (negb (i + 1 =? optLen) || negb (Ascii.eqb c NUL)); [|apply IH].
      destruct (poke line j NUL) as [l1|] eqn:H1; simpl; [|discriminate].
      destruct (sprintf_tmp c) as [e|]; simpl; [|discriminate].
      destruct (strcat l1 e) as [l2|] eqn:H2; simpl; [|discriminate].
      intros H. apply IH in H. apply poke_length in H1.
      apply strcat_length in H2. congruence.
Qed.

(** [line] keeps its size through a rendering. *)
Lemma render_length (line line' thestring data : bytes) (optLen : Z) :
  render line thestring optLen = Ok (line', data) ->
  length line' = length line.
Proof.
  unfold render, strcpy.
  destruct (pokes line 0 ([DQUOTE] ++ [NUL])) as [l1|] eqn:H1; simpl;
    [|discriminate].
  destruct (renderLoop (substr0 thestring optLen) 0 optLen l1 1)
    as [[l2 j]|] eqn:H2; simpl; [|discriminate].
  destruct (poke l2 j NUL) as [l3|] eqn:H3; simpl; [|discriminate].
  destruct (strcat l3 [DQUOTE; LF]) as [l4|] eqn:H4; simpl; [|discriminate].
  destruct (strlen l4); simpl; [|discriminate].
  intros [= <- _]. apply pokes_length in H1. apply renderLoop_length in H2.
  apply poke_length in H3. apply strcat_length in H4. congruence.
Qed.

Lemma emit_line_length (w : World) (thestring : bytes) (optLen : Z) :
  length (line (outcomeWorld (emit w thestring optLen))) = length (line w).
Proof.
  unfold emit. destruct (diagTerminates thestring); simpl; [|reflexivity].
  destruct (clampLen thestring optLen) as [n|]; [|reflexivity].
  destruct (render (line w) thestring n) as [[line' data]|e] eqn:Hr;
    [|reflexivity].
  apply render_length in Hr. simpl. destruct (fd_open w); simpl; exact Hr.
Qed.

(** No instruction of a run faults on [line]. *)
Lemma runOnInstruction_in_bounds (w : World) (IN : Instruction) :
  0 < MAX_AUTO_EXTRA ->
  length (line w) = Z.to_nat (MAX_AUTO_EXTRA * 8) ->
  length (line (outcomeWorld (runOnInstruction w IN))) = length (line w) /\
  forall f w', runOnInstruction w IN = Undefined f w' -> f = TmpOverrun.
Proof.
  intros Hmax Hlen.
  destruct IN as [callInst|]; simpl; [|split; [auto|discriminate]].
  destruct (analyzeCall (valueMap w) callInst) as [m [|name s n|]]; simpl;
    [split; [auto|discriminate]| |split; [auto|discriminate]].
  split; [apply (emit_line_length (setValueMap w m))|].
  unfold emit. destruct (diagTerminates s); simpl; [|discriminate].
  destruct (clampLen s n) as [k|] eqn:Hk; [|discriminate].
  destruct (render_in_bounds (line w) s n k Hmax Hlen Hk)
    as [(line' & data & -> & _)|(-> & _)]; simpl.
  - destruct (fd_open w); discriminate.
  - by intros f w' [= <- _].
Qed.

Lemma runOnInstructions_in_bounds (INs : list Instruction) (w : World) :
  0 < MAX_AUTO_EXTRA ->
  length (line w) = Z.to_nat (MAX_AUTO_EXTRA * 8) ->
  length (line (outcomeWorld (runOnInstructions w INs))) = length (line w) /\
  forall f w', runOnInstructions w INs = Undefined f w' -> f = TmpOverrun.
Proof.
  intros Hmax. revert w. induction INs as [|IN rest IH]; intros w Hlen; simpl.
  - split; [auto|discriminate].
  - destruct (runOnInstruction_in_bounds w IN Hmax Hlen) as [Hl Hf].
    destruct (runOnInstruction w IN) as [w1| | | |] eqn:H1; simpl in *;
      try (split; [assumption|by eauto]).
    destruct (IH w1) as [Hl1 Hf1]; [congruence|]. split; [congruence|exact Hf1].
Qed.

(** Over a whole module: the only undefined behaviour the run can meet is
    the overflow of [tmp]; [line] is never written or read out of bounds. *)
Lemma run_never_overruns_line (M : list FunctionDef) (line0 : bytes)
    (f : fault) (w' : World) :
  0 < MAX_AUTO_EXTRA ->
  length line0 = Z.to_nat (MAX_AUTO_EXTRA * 8) ->
  runOnModule line0 M = Undefined f w' -> f = TmpOverrun.
Proof.
  intros Hmax Hlen. unfold runOnModule.
  assert (Hgen : forall w, length (line w) = Z.to_nat (MAX_AUTO_EXTRA * 8) ->
            runOnFunctions w M = Undefined f w' -> f = TmpOverrun).
  { induction M as [|F rest IH]; intros w Hw; simpl; [discriminate|].
    unfold runOnFunction. destruct (isIgnoreFunction (fn F)); [by apply IH|].
    destruct (runOnInstructions_in_bounds (concat (blocks F)) w Hmax Hw)
      as [Hl Hf].
    destruct (runOnInstructions w (concat (blocks F))) as [w1| | | |] eqn:H1;
      simpl in *; try discriminate.
    - apply IH. simpl. congruence.
    - intros [= -> ->]. eauto. }
  apply Hgen. exact Hlen.
Qed.

(** When the diagnostic loop ends, the descriptor is open and no byte
    overflows [tmp], an accepted candidate is written, and the line that
    reaches the file is the quote, the printable bytes, the quote and a
    line feed. *)
Lemma emit_produces_entry (w : World) (thestring : bytes) (optLen n : Z) :
  0 < MAX_AUTO_EXTRA ->
  length (line w) = Z.to_nat (MAX_AUTO_EXTRA * 8) ->
  diagTerminates thestring = true -> fd_open w = true ->
  char_signed = false \/ Forall (fun c => (N_of_ascii c < 128)%N) thestring ->
  clampLen thestring optLen = Some n ->
  written (outcomeWorld (emit w thestring optLen)) =
  written w ++ [DQUOTE :: List.filter isprint (substr0 thestring n)
                  ++ [DQUOTE; LF]].
Proof.
  intros Hmax Hlen Hd Hfd Hch Hc.
  destruct (render_in_bounds (line w) thestring optLen n Hmax Hlen Hc)
    as [(line' & data & Hr & _ & _ & ->)|(_ & Hcs & Hex)].
  - rewrite (emit_writes w thestring line' _ optLen n Hd Hfd Hc Hr).
    simpl. rewrite written_wrote. reflexivity.
  - exfalso. destruct Hch as [Hch|Hch]; [congruence|].
    apply Exists_exists in Hex as (c & Hin & H128).
    rewrite Forall_forall in Hch. specialize (Hch c Hin). lia.
Qed.

(** ** Further properties of the reconciler *)

Lemma cstr_find (s : bytes) (i : Z) :
  find_from (s ++ [NUL]) NUL i = i + str_length (cstr s).
Proof.
  unfold str_length. revert i. induction s as [|c r IH]; intros i; simpl.
  - lia.
  - destruct (Ascii.eqb c NUL); simpl; [lia|]. rewrite IH. lia.
Qed.

Lemma cstr_length_le (s : bytes) : str_length (cstr s) <= str_length s.
Proof.
  unfold str_length. induction s as [|c r IH]; simpl; [lia|].
  destruct (Ascii.eqb c NUL); simpl; lia.
Qed.

Lemma cstr_take (s : bytes) :
  take (S (length (cstr s))) (s ++ [NUL]) = cstr s ++ [NUL].
Proof.
  induction s as [|c r IH]; simpl; [reflexivity|].
  destruct (Ascii.eqb_spec c NUL) as [->|Hc]; simpl.
  - reflexivity.
  - by rewrite IH.
Qed.

Lemma cstr_no_NUL (s : bytes) : NUL ∉ s -> cstr s = s.
Proof.
  induction s as [|c r IH]; intros Hs; simpl; [reflexivity|].
  apply not_elem_of_cons in Hs as [Hc Hr].
  destruct (Ascii.eqb_spec c NUL); [congruence|]. by rewrite IH.
Qed.

(** The closed form of the terminator step once the string ends in a zero
    byte: the string is cut at [optLen], and no later than after the first
    zero byte. *)
Lemma cut_after_first_zero (s : bytes) (optLen : Z) :
  0 <= optLen -> str_length s < 2 ^ 64 - 1 ->
  let offset := str_find (s ++ [NUL]) NUL in
  let n := if wrap64 (offset + 1) <? optLen then wrap64 (offset + 1)
           else optLen in
  n = Z.min optLen (str_length (cstr s) + 1) /\
  substr0 (s ++ [NUL]) n = take (Z.to_nat n) (cstr s ++ [NUL]) /\
  str_length (substr0 (s ++ [NUL]) n) = n.
Proof.
  intros Hn Hs. unfold str_find. rewrite cstr_find, Z.add_0_l. simpl.
  pose proof (cstr_length_le s) as Hle.
  assert (H0 : 0 <= str_length (cstr s)) by (unfold str_length; lia).
  rewrite wrap64_small by lia.
  set (p := str_length (cstr s)) in *.
  set (n := if p + 1 <? optLen then p + 1 else optLen).
  assert (Hmin : n = Z.min optLen (p + 1)).
  { subst n. destruct (Z.ltb_spec (p + 1) optLen); lia. }
  split; [exact Hmin|]. rewrite substr0_take.
  assert (Htake : take (Z.to_nat n) (s ++ [NUL])
                  = take (Z.to_nat n) (cstr s ++ [NUL])).
  { rewrite <- cstr_take.
    rewrite take_take. f_equal. unfold p, str_length in Hmin. lia. }
  split; [exact Htake|].
  unfold str_length. rewrite Htake, length_take, length_app. simpl.
  unfold p, str_length in Hmin. lia.
Qed.

Lemma reconcile_unbounded (k : Kind) (callInst : CallInst) (s : bytes) :
  k = Strcmp \/ k = Strcasecmp ->
  str_length s < 2 ^ 64 - 1 ->
  reconcile (flagsOf k) callInst s
  = Some (cstr s ++ [NUL], str_length (cstr s) + 1).
Proof.
  intros Hk Hs.
  assert (H0 : 0 <= str_length s) by (unfold str_length; lia).
  assert (Hr : reconcile (flagsOf k) callInst s
               = Some (terminatorStep (flagsOf k) s (str_length s) false))
    by (destruct Hk as [-> | ->]; reflexivity).
  rewrite Hr. clear Hr. f_equal.
  assert (Hm : isMemcmp (flagsOf k) = false)
    by (destruct Hk as [-> | ->]; reflexivity).
  unfold terminatorStep. rewrite Hm. simpl.
  rewrite (wrap64_small (str_length s + 1)) by lia.
  destruct (cut_after_first_zero s (str_length s + 1)) as (Hn & Ht & _);
    [lia|lia|].
  cbv zeta in Hn, Ht. rewrite Ht, Hn.
  pose proof (cstr_length_le s).
  rewrite Z.min_r by lia. f_equal.
  rewrite take_ge; [reflexivity|].
  rewrite length_app. unfold str_length. simpl. lia.
Qed.

(** For strcmp and strcasecmp the candidate is the C string of the
    resolved content with its terminator, and the effective length is its
    length: bytes after a zero byte of the content are discarded. *)
Theorem unbounded_candidate_is_c_string (k : Kind) (callInst : CallInst)
    (s : bytes) :
  k = Strcmp \/ k = Strcasecmp ->
  str_length s < 2 ^ 64 - 1 ->
  reconcile (flagsOf k) callInst s
  = Some (cstr s ++ [NUL], str_length (cstr s) + 1).
Proof. apply reconcile_unbounded. Qed.

(** What the length step hands to the terminator step. *)
Lemma lengthStep_string (f : Flags) (callInst : CallInst) (s s1 : bytes)
    (o : Z) (a : bool) :
  lengthStep f callInst s = Some (s1, o, a) ->
  0 <= o /\ (if a then s1 = s ++ [NUL] else s1 = s).
Proof.
  unfold lengthStep.
  assert (H0 : 0 <= str_length s) by (unfold str_length; lia).
  destruct (isMemcmp f || isStrncmp f || isStrncasecmp f).
  - destruct (getArgOperand callInst 2) as [op2|]; [|discriminate].
    destruct (kind op2) as [| N |]; try (intros [= <- <- <-]; auto).
    pose proof (Z.mod_pos_bound N (2 ^ 64)).
    destruct (wrap64 (str_length s + 1) =? wrap64 N); intros [= <- <- <-];
      unfold wrap64; split; auto; lia.
  - intros [= <- <- <-]. auto.
Qed.

(** For the four string kinds the candidate is a prefix of the C string of
    the resolved content with its terminator, and the effective length is
    the length of the candidate: a zero byte can only be its last byte, and
    the recomputation of line 440 changes nothing. *)
Theorem string_candidate_prefix_of_c_string (k : Kind) (callInst : CallInst)
    (s t : bytes) (n : Z) :
  k <> Memcmp -> str_length s < 2 ^ 64 - 1 ->
  reconcile (flagsOf k) callInst s = Some (t, n) ->
  t `prefix_of` cstr s ++ [NUL] /\ n = str_length t.
Proof.
  intros Hk Hs. unfold reconcile.
  destruct (lengthStep (flagsOf k) callInst s) as [[[s1 o] a]|] eqn:Hl;
    [|discriminate].
  apply lengthStep_string in Hl as [Ho Hs1].
  assert (Hm : isMemcmp (flagsOf k) = false) by (by destruct k).
  unfold terminatorStep. rewrite Hm. simpl.
  assert (Hcut : forall optLen, 0 <= optLen ->
    let offset := str_find (s ++ [NUL]) NUL in
    let m := if wrap64 (offset + 1) <? optLen then wrap64 (offset + 1)
             else optLen in
    Some (substr0 (s ++ [NUL]) m, m) = Some (t, n) ->
    t `prefix_of` cstr s ++ [NUL] /\ n = str_length t).
  { intros optLen H0. cbv zeta.
    destruct (cut_after_first_zero s optLen H0 Hs) as (_ & Ht & Hlen).
    cbv zeta in Ht, Hlen. intros [= <- <-]. split; [|by rewrite Hlen].
    rewrite Ht. apply prefix_take. }
  destruct a; simpl; subst s1.
  - apply Hcut. exact Ho.
  - apply Hcut. apply Z.mod_pos_bound. lia.
Qed.

(** For strncmp and strncasecmp with a constant length [N], the candidate
    is the first [N + 1] bytes of the literal with its terminator: one byte
    more than the call compares when [N] is less than the length of the
    literal, the whole literal and its terminator otherwise. *)
Theorem bounded_candidate_one_byte_more (k : Kind) (callInst : CallInst)
    (op2 : Value) (s : bytes) (N : Z) :
  k = Strncmp \/ k = Strncasecmp ->
  getArgOperand callInst 2 = Some op2 -> kind op2 = ConstantInt N ->
  0 <= N < 2 ^ 64 - 1 -> str_length s < 2 ^ 64 - 1 -> NUL ∉ s ->
  reconcile (flagsOf k) callInst s
  = Some (take (Z.to_nat (N + 1)) (s ++ [NUL]),
          Z.min (N + 1) (str_length s + 1)).
Proof.
  intros Hk H2 Hop HN Hs Hnul.
  assert (H0 : 0 <= str_length s) by (unfold str_length; lia).
  assert (Hb : isMemcmp (flagsOf k) || isStrncmp (flagsOf k)
               || isStrncasecmp (flagsOf k) = true)
    by (destruct Hk as [-> | ->]; reflexivity).
  assert (Hm : isMemcmp (flagsOf k) = false)
    by (destruct Hk as [-> | ->]; reflexivity).
  unfold reconcile, lengthStep. rewrite Hb, H2, Hop.
  rewrite (wrap64_small N), (wrap64_small (str_length s + 1)) by lia.
  assert (Hcut : forall optLen, 0 <= optLen ->
    Z.min optLen (str_length s + 1) = Z.min (N + 1) (str_length s + 1) ->
    let offset := str_find (s ++ [NUL]) NUL in
    let m := if wrap64 (offset + 1) <? optLen then wrap64 (offset + 1)
             else optLen in
    (substr0 (s ++ [NUL]) m, m)
    = (take (Z.to_nat (N + 1)) (s ++ [NUL]),
       Z.min (N + 1) (str_length s + 1))).
  { intros optLen Hopt Hmin. cbv zeta.
    destruct (cut_after_first_zero s optLen Hopt Hs) as (Hn & Ht & _).
    cbv zeta in Hn, Ht. rewrite (cstr_no_NUL s Hnul) in Hn, Ht.
    rewrite Ht, Hn, Hmin. f_equal.
    destruct (Z.le_gt_cases (N + 1) (str_length s + 1)).
    - by rewrite Z.min_l by lia.
    - rewrite Z.min_r by lia.
      rewrite !take_ge; [reflexivity| |];
        rewrite length_app; unfold str_length in *; simpl; lia. }
  unfold terminatorStep. rewrite Hm. simpl.
  destruct (Z.eqb_spec (str_length s + 1) N) as [HeqN|Hne]; simpl.
  - f_equal. apply Hcut; lia.
  - rewrite (wrap64_small (N + 1)) by lia. f_equal. apply Hcut; lia.
Qed.

(** A bounded comparison whose constant length is the largest [size_t]
    yields an empty candidate: the increment of line 406 wraps the
    effective length to zero, and the string is cut to nothing. *)
Theorem bounded_by_size_max_is_empty (k : Kind) (callInst : CallInst)
    (op2 : Value) (s : bytes) (N : Z) :
  k = Strncmp \/ k = Strncasecmp ->
  getArgOperand callInst 2 = Some op2 -> kind op2 = ConstantInt N ->
  wrap64 N = 2 ^ 64 - 1 -> str_length s < 2 ^ 64 - 2 ->
  reconcile (flagsOf k) callInst s = Some ([], 0) /\
  forall w, 0 < MIN_AUTO_EXTRA -> emit w [] 0 = Running w.
Proof.
  intros Hk H2 Hop HN Hs.
  assert (H0 : 0 <= str_length s) by (unfold str_length; lia).
  split.
  - assert (Hb : isMemcmp (flagsOf k) || isStrncmp (flagsOf k)
                 || isStrncasecmp (flagsOf k) = true)
      by (destruct Hk as [-> | ->]; reflexivity).
    assert (Hm : isMemcmp (flagsOf k) = false)
      by (destruct Hk as [-> | ->]; reflexivity).
    unfold reconcile, lengthStep. rewrite Hb, H2, Hop, HN.
    rewrite (wrap64_small (str_length s + 1)) by lia.
    destruct (Z.eqb_spec (str_length s + 1) (2 ^ 64 - 1)); [lia|].
    unfold terminatorStep. rewrite Hm. simpl.
    replace (wrap64 (2 ^ 64 - 1 + 1)) with 0 by reflexivity.
    pose proof (Z.mod_pos_bound (str_find (s ++ [NUL]) NUL + 1) (2 ^ 64)).
    destruct (Z.ltb_spec (wrap64 (str_find (s ++ [NUL]) NUL + 1)) 0);
      [unfold wrap64 in *; lia|].
    destruct s; reflexivity.
  - intros w Hmin. unfold emit, diagTerminates.
    replace (str_length [] <? 256) with true by reflexivity.
    rewrite orb_true_r. simpl. rewrite clampLen_spec.
    destruct (Z.ltb_spec (Z.min (str_length []) MAX_AUTO_EXTRA) MIN_AUTO_EXTRA);
      [reflexivity|]. unfold str_length in *. simpl in *. lia.
Qed.

(** ** Further properties of the classifier and of comparison sites *)

Lemma Ty_eqb_refl (a : Ty) : Ty_eqb a a = true.
Proof. by apply Ty_eqb_eq. Qed.

(** The classifier accepts every direct call with the C calling convention
    to a function that bears one of the six names and has the checked
    prototype of that name; for the memcpy intrinsic the name is enough. *)
Theorem classify_accepts_checked_prototype (callInst : CallInst)
    (Callee : Function) (k : Kind) :
  getCalledFunction callInst = Some Callee ->
  getCallingConv callInst = CallingConv_C ->
  getName Callee = kindName k ->
  signatureOf k (getFunctionType Callee) ->
  classify callInst = Some (Callee, flagsOf k).
Proof.
  intros HC Hcc Hname Hsig. unfold classify. rewrite HC, Hcc, Hname. simpl.
  assert (Hn : nameFlags (kindName k) = flagsOf k) by (by destruct k).
  rewrite Hn.
  assert (Ha : anyFlag (flagsOf k) = true) by (by destruct k).
  rewrite Ha. simpl.
  assert (Hp : prototypeFlags (getFunctionType Callee) (flagsOf k) = flagsOf k).
  { unfold prototypeFlags, protoStr2, protoStr3, protoMem.
    destruct k; simpl in *.
    - destruct Hsig as [-> ->]. reflexivity.
    - destruct Hsig as (p0 & p1 & p2 & -> & H0 & H1 & H2 & ->).
      by rewrite H0, H1, H2.
    - destruct Hsig as (p2 & -> & H2 & ->). by rewrite H2.
    - destruct Hsig as [-> ->]. reflexivity.
    - destruct Hsig as (p2 & -> & H2 & ->). by rewrite H2.
    - reflexivity. }
  rewrite Hp, Ha. reflexivity.
Qed.

(** The candidate of a comparison site whose first operand does not
    resolve and whose second operand resolves to [s]. *)
Lemma second_operand_candidate (m : ValueMap) (callInst : CallInst)
    (Callee : Function) (f : Flags) (Str1P Str2P : Value) (s : bytes) :
  classify callInst = Some (Callee, f) -> isIntMemcpy f = false ->
  getArgOperand callInst 0 = Some Str1P ->
  getArgOperand callInst 1 = Some Str2P ->
  specResolves m Str1P = false -> specResolve m Str2P = Some s ->
  (analyzeCall m callInst).2 =
  match reconcile f callInst s with
  | None => BadOperand
  | Some (thestring, optLen) => Candidate (getName Callee) thestring optLen
  end.
Proof.
  intros Hc Hf H1 H2 Hr1 Hr2.
  destruct (analyzeCall_compare m _ _ _ _ _ Hc Hf H1 H2) as [_ ->].
  rewrite flags_xor.
  assert (Hs : staleLiteral Str1P Str2P = false).
  { destruct (staleLiteral Str1P Str2P) eqn:Hs; [|reflexivity].
    apply (staleLiteral_resolves m) in Hs. congruence. }
  unfold specResolves in *. rewrite Hs, Hr2.
  destruct (specResolve m Str1P); [discriminate|]. reflexivity.
Qed.

(** A comparison whose first operand is a non-empty string literal and
    whose second operand is no constant string is skipped, whatever the
    table holds: the failed analysis of the second operand leaves the
    literal of the first in [TmpStr], and both operands count as known. *)
Theorem literal_first_operand_is_skipped (w : World) (callInst : CallInst)
    (Callee : Function) (f : Flags) (Str1P Str2P : Value) (c : ascii)
    (s : bytes) :
  classify callInst = Some (Callee, f) -> isIntMemcpy f = false ->
  getArgOperand callInst 0 = Some Str1P ->
  getArgOperand callInst 1 = Some Str2P ->
  constantStringInfo Str1P = Some (c :: s) ->
  constantStringInfo Str2P = None ->
  (analyzeCall (valueMap w) callInst).2 = Skip /\
  exists w', runOnInstruction w (Call callInst) = Running w' /\
             trace w' = trace w /\ found w' = found w.
Proof.
  intros Hc Hf H1 H2 Hl1 Hl2.
  assert (Hskip : (analyzeCall (valueMap w) callInst).2 = Skip).
  { destruct (analyzeCall_compare (valueMap w) _ _ _ _ _ Hc Hf H1 H2)
      as [_ ->].
    rewrite flags_xor. unfold staleLiteral. rewrite Hl1, Hl2.
    by rewrite andb_false_r. }
  split; [exact Hskip|]. simpl.
  destruct (analyzeCall (valueMap w) callInst) as [m' step]. simpl in Hskip.
  subst step. eauto.
Qed.

(** ** From the call to the line in the file *)

Lemma filter_isprint_id (s : bytes) :
  Forall (fun c => isprint c = true) s -> List.filter isprint s = s.
Proof.
  induction 1 as [|c r Hc _ IH]; simpl; [reflexivity|]. by rewrite Hc, IH.
Qed.

Lemma isprint_ascii (c : ascii) : isprint c = true -> (N_of_ascii c < 128)%N.
Proof.
  unfold isprint. intros H. apply andb_true_iff in H as [_ H].
  apply N.leb_le in H. lia.
Qed.


(** An accepted candidate that overflows nothing is written, counted, and
    reaches the file as the quoted printable bytes. *)
Lemma emit_entry (w : World) (thestring : bytes) (optLen n : Z) :
  0 < MAX_AUTO_EXTRA ->
  length (line w) = Z.to_nat (MAX_AUTO_EXTRA * 8) ->
  diagTerminates thestring = true -> fd_open w = true ->
  char_signed = false \/ Forall (fun c => (N_of_ascii c < 128)%N) thestring ->
  clampLen thestring optLen = Some n ->
  exists line',
    emit w thestring optLen =
    Running (wrote (setLine w line')
               (quoted (List.filter isprint (substr0 thestring n)))) /\
    length line' = length (line w).
Proof.
  intros Hmax Hlen Hd Hfd Hch Hc.
  destruct (render_in_bounds (line w) thestring optLen n Hmax Hlen Hc)
    as [(line' & data & Hr & Hl & _ & ->)|(_ & Hcs & Hex)].
  - exists line'. split; [|exact Hl].
    exact (emit_writes w thestring line' _ optLen n Hd Hfd Hc Hr).
  - exfalso. destruct Hch as [Hch|Hch]; [congruence|].
    apply Exists_exists in Hex as (c & Hin & H128).
    rewrite Forall_forall in Hch. specialize (Hch c Hin). lia.
Qed.

Lemma printable_entry_body (s : bytes) (n : Z) :
  Forall (fun c => isprint c = true) s ->
  n = Z.min (str_length s + 1) MAX_AUTO_EXTRA -> 0 < MAX_AUTO_EXTRA ->
  List.filter isprint (substr0 (s ++ [NUL]) n)
  = take (Z.to_nat MAX_AUTO_EXTRA) s.
Proof.
  intros Hs -> Hmax. rewrite substr0_take. unfold str_length.
  destruct (Z.le_gt_cases (Z.of_nat (length s) + 1) MAX_AUTO_EXTRA).
  - rewrite Z.min_l by lia.
    rewrite take_ge by (rewrite length_app; simpl; lia).
    rewrite List.filter_app, filter_isprint_id by assumption. simpl.
    rewrite app_nil_r, take_ge by lia. reflexivity.
  - rewrite Z.min_r by lia. rewrite take_app_le by lia.
    apply filter_isprint_id, Forall_take, Hs.
Qed.


(** Without [be_quiet], strcmp or strcasecmp against a string of 255
    bytes or more never gets past the diagnostic print: its loop counter is
    a [uint8_t] and the candidate has 256 bytes or more.  Nothing is
    written. *)
Theorem long_literal_hangs_when_not_quiet (w : World) (callInst : CallInst)
    (Callee : Function) (k : Kind) (Str1P Str2P : Value) (s : bytes) :
  k = Strcmp \/ k = Strcasecmp ->
  classify callInst = Some (Callee, flagsOf k) ->
  getArgOperand callInst 0 = Some Str1P ->
  getArgOperand callInst 1 = Some Str2P ->
  specResolves (valueMap w) Str1P = false ->
  specResolve (valueMap w) Str2P = Some s ->
  NUL ∉ s -> 255 <= str_length s < 2 ^ 64 - 1 ->
  be_quiet = false ->
  exists w', runOnInstruction w (Call callInst) = Hung w' /\
             trace w' = trace w /\ found w' = found w.
Proof.
  intros Hk Hc H1 H2 Hr1 Hr2 Hnul Hs Hq.
  assert (Hf : isIntMemcpy (flagsOf k) = false)
    by (destruct Hk as [-> | ->]; reflexivity).
  pose proof (second_operand_candidate _ _ _ _ _ _ s Hc Hf H1 H2 Hr1 Hr2)
    as Hstep.
  rewrite (reconcile_unbounded k callInst s Hk) in Hstep by lia.
  rewrite (cstr_no_NUL s Hnul) in Hstep.
  simpl. destruct (analyzeCall (valueMap w) callInst) as [m' step].
  simpl in Hstep. subst step. unfold emit, diagTerminates. rewrite Hq.
  assert (Hlen' : str_length (s ++ [NUL]) = str_length s + 1).
  { unfold str_length. rewrite length_app. simpl. lia. }
  rewrite Hlen'. simpl.
  destruct (Z.ltb_spec (str_length s + 1) 256); [lia|]. simpl. eauto.
Qed.

(** ** Invariants of a whole run *)

(** A property of runs holds for the scan of a module when it holds for
    each thing a run is made of: staying put, updating the table, one
    emission, the stop at a missing operand, closing the descriptor, and
    one run after another. *)
Lemma run_outcome_ind (Q : World -> Outcome -> Prop) :
  (forall w, Q w (Running w)) ->
  (forall w, Q w (Malformed w)) ->
  (forall a b o, Q a (Running b) -> Q b o -> Q a o) ->
  (forall w m, Q w (Running (setValueMap w m))) ->
  (forall w s n, Q w (emit w s n)) ->
  (forall w, Q w (Running (closed w))) ->
  forall M w, Q w (runOnFunctions w M).
Proof.
  intros Hrefl Hmal Htrans Hmap Hemit Hclose.
  assert (Hin : forall w IN, Q w (runOnInstruction w IN)).
  { intros w [callInst|]; simpl; [|apply Hrefl].
    destruct (analyzeCall (valueMap w) callInst) as [m [|name s n|]].
    - apply Hmap.
    - eapply Htrans; [apply Hmap|apply Hemit].
    - eapply Htrans; [apply Hmap|apply Hmal]. }
  assert (Hins : forall INs w, Q w (runOnInstructions w INs)).
  { induction INs as [|IN rest IH]; intros w; simpl; [apply Hrefl|].
    pose proof (Hin w IN) as H1.
    destruct (runOnInstruction w IN) as [w1| | | |]; try exact H1.
    eapply Htrans; [exact H1|apply IH]. }
  induction M as [|F rest IH]; intros w; simpl; [apply Hrefl|].
  unfold runOnFunction. destruct (isIgnoreFunction (fn F)); [apply IH|].
  pose proof (Hins (concat (blocks F)) w) as H1.
  destruct (runOnInstructions w (concat (blocks F))) as [w1| | | |];
    try exact H1.
  eapply Htrans; [exact H1|]. eapply Htrans; [apply Hclose|apply IH].
Qed.

Lemma synced_app (t u : list Event) :
  synced t = true -> synced (t ++ u) = synced u.
Proof.
  assert (H : forall n t, (length t <= n)%nat -> synced t = true ->
                          synced (t ++ u) = synced u).
  { induction n as [|n IH]; intros [|e r] Hlen Hs; simpl in *;
      try reflexivity; try lia.
    destruct e.
    - destruct r as [|[] r']; try discriminate. simpl.
      apply IH; [simpl in Hlen; lia|exact Hs].
    - apply IH; [lia|exact Hs].
    - apply IH; [lia|exact Hs]. }
  intros Hs. by apply (H (length t)).
Qed.

(** The counter and the file move together, and every write is synced. *)
Lemma run_counts (M : list FunctionDef) (w : World) :
  let w' := outcomeWorld (runOnFunctions w M) in
  found w' - found w
  = Z.of_nat (length (written w')) - Z.of_nat (length (written w)) /\
  (synced (trace w) = true -> synced (trace w') = true).
Proof.
  apply (run_outcome_ind (fun w o =>
    found (outcomeWorld o) - found w
    = Z.of_nat (length (written (outcomeWorld o)))
      - Z.of_nat (length (written w)) /\
    (synced (trace w) = true -> synced (trace (outcomeWorld o)) = true))).
  - intros w0. simpl. split; [lia|auto].
  - intros w0. simpl. split; [lia|auto].
  - intros a b o [H1 H2] [H3 H4]. simpl in *. split; [lia|auto].
  - intros w0 m. simpl. rewrite written_setValueMap. split; [lia|auto].
  - intros w0 s n.
    destruct (emit_trace w0 s n) as [_ [[Ht Hf]|(k & l & d0 & _ & _ & ->)]].
    + unfold written. rewrite Ht, Hf. split; [lia|auto].
    + simpl. rewrite written_wrote, length_app. simpl.
      change (written (setLine w0 l)) with (written w0).
      split; [lia|]. intros Hs. by rewrite synced_app.
  - intros w0. simpl. split.
    + unfold written. simpl. rewrite omap_app. simpl. rewrite app_nil_r. lia.
    + intros Hs. by rewrite synced_app.
Qed.

(** Every entry costs one write followed at once by one fsync, and the
    counter [found] goes up by exactly the number of lines appended to the
    file, however the scan of the module ends. *)
Theorem counter_matches_synced_writes (M : list FunctionDef) (line0 : bytes) :
  let w' := outcomeWorld (runOnModule line0 M) in
  found w' = Z.of_nat (length (written w')) /\ synced (trace w') = true.
Proof.
  destruct (run_counts M (initialWorld line0)) as [Hf Hs]. simpl in *.
  unfold runOnModule. split; [|by apply Hs].
  change (written (initialWorld line0)) with (@nil bytes) in Hf.
  simpl in Hf. lia.
Qed.

(** A pass that scans to its end and is not quiet reports the number of
    lines it appended to the file, or that there were none. *)
Theorem summary_reports_lines_written (M : list FunctionDef) (line0 : bytes)
    (w' : World) :
  runOnModule line0 M = Running w' ->
  Z.of_nat (length (written w')) < 2 ^ 31 ->
  summary w' =
  if be_quiet then Silent
  else match written w' with
       | [] => NoEntries
       | _ :: _ => Wrote (Z.of_nat (length (written w')))
       end.
Proof.
  intros Hrun _.
  destruct (run_counts M (initialWorld line0)) as [Hf _]. simpl in Hf.
  unfold runOnModule in Hrun. rewrite Hrun in Hf. simpl in Hf.
  change (written (initialWorld line0)) with (@nil bytes) in Hf.
  simpl in Hf. unfold summary. destruct be_quiet; simpl; [reflexivity|].
  replace (found w') with (Z.of_nat (length (written w'))) by lia.
  destruct (written w'); reflexivity.
Qed.

(** Only the first function that is scanned can add to the file: what a
    run has written, however it ends, is what the scan of that function
    wrote. *)
Theorem entries_come_from_first_scanned_function (M : list FunctionDef)
    (w : World) :
  written (outcomeWorld (runOnFunctions w M)) =
  match scanned M with
  | [] => written w
  | F :: _ => written (outcomeWorld (runOnInstructions w (concat (blocks F))))
  end.
Proof.
  revert w. induction M as [|F rest IH]; intros w; simpl; [reflexivity|].
  unfold runOnFunction, scanned. simpl. fold (scanned rest).
  destruct (isIgnoreFunction (fn F)); simpl; [apply IH|].
  destruct (runOnInstructions w (concat (blocks F))) as [w1| | | |];
    try reflexivity.
  rewrite closed_descriptor_writes_nothing by reflexivity.
  unfold written, closed. simpl. rewrite omap_app. simpl.
  by rewrite app_nil_r.
Qed.

(** ** Undefined behaviour *)

(** Where [char] is signed, a rendering that completes has met no byte of
    0x80 or more. *)
Lemma renderLoop_ok_ascii (ptr : bytes) :
  forall (i optLen : Z) (line : bytes) (j : nat) (r : bytes * nat),
    char_signed = true ->
    renderLoop ptr i optLen line j = Ok r ->
    Forall (fun c => (N_of_ascii c < 128)%N) ptr.
Proof.
  induction ptr as [|c rest IH]; intros i optLen line j r Hcs; simpl.
  - constructor.
  - destruct (isprint c) eqn:Hc.
    + destruct (poke line j c) as [l1|]; simpl; [|discriminate].
      intros H. constructor; [by apply isprint_ascii|]. by eapply IH.
    + destruct (negb (i + 1 =? optLen) || negb (Ascii.eqb c NUL)) eqn:He.
      * destruct (poke line j NUL) as [l1|]; simpl; [|discriminate].
        rewrite sprintf_tmp_spec, Hcs. simpl.
        destruct (N.leb_spec 128 (N_of_ascii c)) as [|Hlt]; simpl;
          [discriminate|].
        destruct (strcat l1 _) as [l2|]; simpl; [|discriminate].
        intros H. constructor; [assumption|]. by eapply IH.
      * apply orb_false_iff in He as [_ He]. apply negb_false_iff in He.
        apply Ascii.eqb_eq in He. subst c.
        intros H. constructor; [reflexivity|]. by eapply IH.
Qed.

(** On a platform with signed [char], an accepted candidate with a byte of
    0x80 or more among the bytes that are rendered overflows [tmp]: sprintf
    writes eleven bytes into the eight of the array.  Nothing is written
    for it. *)
Theorem high_byte_overflows_tmp (w : World) (thestring : bytes)
    (optLen n : Z) :
  char_signed = true -> 0 < MAX_AUTO_EXTRA ->
  length (line w) = Z.to_nat (MAX_AUTO_EXTRA * 8) ->
  diagTerminates thestring = true ->
  clampLen thestring optLen = Some n ->
  Exists (fun c => (128 <= N_of_ascii c)%N) (substr0 thestring n) ->
  emit w thestring optLen = Undefined TmpOverrun w.
Proof.
  intros Hcs Hmax Hlen Hd Hc Hex. unfold emit. rewrite Hd, Hc. simpl.
  destruct (render_in_bounds (line w) thestring optLen n Hmax Hlen Hc)
    as [(line' & data & Hr & _)|(-> & _)]; [|reflexivity].
  exfalso. unfold render in Hr.
  destruct (strcpy (line w) [DQUOTE]) as [l1|]; simpl in Hr; [|discriminate].
  destruct (renderLoop (substr0 thestring n) 0 n l1 1) as [r|] eqn:Hloop;
    simpl in Hr; [|discriminate].
  pose proof (renderLoop_ok_ascii _ _ _ _ _ _ Hcs Hloop) as Hall.
  apply Exists_exists in Hex as (c & Hin & H128).
  rewrite Forall_forall in Hall. specialize (Hall c Hin). lia.
Qed.

Lemma run_undefined_only_signed (M : list FunctionDef) (w : World) :
  0 < MAX_AUTO_EXTRA ->
  length (line w) = Z.to_nat (MAX_AUTO_EXTRA * 8) ->
  length (line (outcomeWorld (runOnFunctions w M))) = length (line w) /\
  forall f w', runOnFunctions w M = Undefined f w' ->
               f = TmpOverrun /\ char_signed = true.
Proof.
  intros Hmax. revert M w.
  apply (run_outcome_ind (fun w o =>
    length (line w) = Z.to_nat (MAX_AUTO_EXTRA * 8) ->
    length (line (outcomeWorld o)) = length (line w) /\
    forall f w', o = Undefined f w' -> f = TmpOverrun /\ char_signed = true)).
  - intros w _. split; [reflexivity|discriminate].
  - intros w _. split; [reflexivity|discriminate].
  - intros a b o Hab Hbo Ha. destruct (Hab Ha) as [Hl _]. simpl in Hl.
    destruct Hbo as [Hl2 Hu]; [congruence|]. split; [congruence|exact Hu].
  - intros w m _. split; [reflexivity|discriminate].
  - intros w s n Hlen. split; [apply emit_line_length|].
    unfold emit. destruct (diagTerminates s); simpl; [|discriminate].
    destruct (clampLen s n) as [k|] eqn:Hk; [|discriminate].
    destruct (render_in_bounds (line w) s n k Hmax Hlen Hk)
      as [(line' & data & -> & _)|(-> & Hcs & _)]; simpl.
    + destruct (fd_open w); discriminate.
    + intros f w' [= <- _]. auto.
  - intros w _. split; [reflexivity|discriminate].
Qed.

(** On a platform with unsigned [char] the scan of a module meets no
    undefined behaviour in [line] or [tmp], whatever the strings. *)
Theorem no_undefined_behaviour_with_unsigned_char (M : list FunctionDef)
    (line0 : bytes) (f : fault) (w' : World) :
  char_signed = false -> 0 < MAX_AUTO_EXTRA ->
  length line0 = Z.to_nat (MAX_AUTO_EXTRA * 8) ->
  runOnModule line0 M <> Undefined f w'.
Proof.
  intros Hcs Hmax Hlen Hrun.
  destruct (run_undefined_only_signed M (initialWorld line0) Hmax Hlen)
    as [_ Hu].
  destruct (Hu f w' Hrun) as [_ Hs]. congruence.
Qed.


(** ** The lines of the file *)

Lemma filter_isprint_Forall (s : bytes) :
  Forall (fun c => isprint c = true) (List.filter isprint s).
Proof.
  apply Forall_forall. intros c Hc.
  by apply list_elem_of_In, List.filter_In in Hc as [_ Hc].
Qed.

Lemma run_lines (M : list FunctionDef) (w : World) :
  0 < MAX_AUTO_EXTRA ->
  length (line w) = Z.to_nat (MAX_AUTO_EXTRA * 8) ->
  length (line (outcomeWorld (runOnFunctions w M))) = length (line w) /\
  exists new, written (outcomeWorld (runOnFunctions w M)) = written w ++ new
              /\ Forall entryLine new.
Proof.
  intros Hmax. revert M w.
  apply (run_outcome_ind (fun w o =>
    length (line w) = Z.to_nat (MAX_AUTO_EXTRA * 8) ->
    length (line (outcomeWorld o)) = length (line w) /\
    exists new, written (outcomeWorld o) = written w ++ new
                /\ Forall entryLine new)).
  - intros w _. split; [reflexivity|]. exists []. by rewrite app_nil_r.
  - intros w _. split; [reflexivity|]. exists []. by rewrite app_nil_r.
  - intros a b o Hab Hbo Ha.
    destruct (Hab Ha) as (Hl & n1 & Hw1 & Hf1). simpl in Hl, Hw1.
    destruct Hbo as (Hl2 & n2 & Hw2 & Hf2); [congruence|].
    split; [congruence|]. exists (n1 ++ n2).
    rewrite Hw2, Hw1, app_assoc. split; [reflexivity|by apply Forall_app].
  - intros w m _. split; [reflexivity|]. exists []. by rewrite app_nil_r.
  - intros w s n Hlen. split; [apply emit_line_length|].
    destruct (emit_trace w s n) as [_ [[Ht _]|(k & l & d0 & Hk & Hr & ->)]].
    + exists []. unfold written. by rewrite Ht, app_nil_r.
    + exists [d0]. simpl. rewrite written_wrote. split; [reflexivity|].
      constructor; [|constructor].
      destruct (render_in_bounds (line w) s n k Hmax Hlen Hk)
        as [(l' & d1 & Hr' & _ & _ & ->)|(Hr' & _)]; [|congruence].
      rewrite Hr in Hr'. injection Hr' as _ ->.
      eexists. split; [reflexivity|]. split; [apply filter_isprint_Forall|].
      pose proof (List.filter_length_le isprint (substr0 s k)) as Hle.
      rewrite substr0_take, length_take in Hle.
      rewrite clampLen_spec in Hk.
      destruct (Z.ltb_spec (Z.min (str_length s) MAX_AUTO_EXTRA)
                  MIN_AUTO_EXTRA); [discriminate|].
      injection Hk as <-. rewrite substr0_take. lia.
  - intros w _. split; [reflexivity|]. exists []. unfold written. simpl.
    rewrite omap_app. simpl. by rewrite !app_nil_r.
Qed.

(** Whatever the module, in a run that stays within defined behaviour
    (no escape overruns [tmp]), whether it reaches the end, stops at the
    fatal error or hangs, every line the pass has appended to the file is a
    double quote, at most [MAX_AUTO_EXTRA] printable bytes (no control byte,
    no line feed, no zero byte), a double quote and one line feed.  Nothing
    is said of a run that overruns [tmp]. *)
Theorem every_line_is_quoted_printable (M : list FunctionDef)
    (line0 : bytes) :
  0 < MAX_AUTO_EXTRA ->
  length line0 = Z.to_nat (MAX_AUTO_EXTRA * 8) ->
  defined (runOnModule line0 M) = true ->
  Forall entryLine (written (outcomeWorld (runOnModule line0 M))).
Proof.
  intros Hmax Hlen _.
  destruct (run_lines M (initialWorld line0) Hmax Hlen)
    as (_ & new & Hw & Hall).
  unfold runOnModule. rewrite Hw. exact Hall.
Qed.

(** ** memcmp keeps the whole literal *)

(** For memcmp the length operand never shortens the entry: whatever the
    third operand is, a printable literal is written whole between the
    quotes (cut at [MAX_AUTO_EXTRA]), also when fewer bytes are compared. *)
Theorem memcmp_writes_whole_literal (w : World) (callInst : CallInst)
    (Callee : Function) (Str1P Str2P op2 : Value) (s : bytes) :
  classify callInst = Some (Callee, flagsOf Memcmp) ->
  getArgOperand callInst 0 = Some Str1P ->
  getArgOperand callInst 1 = Some Str2P ->
  getArgOperand callInst 2 = Some op2 ->
  specResolves (valueMap w) Str1P = false ->
  specResolve (valueMap w) Str2P = Some s ->
  Forall (fun c => isprint c = true) s ->
  0 < MAX_AUTO_EXTRA ->
  MIN_AUTO_EXTRA <= Z.min (str_length s) MAX_AUTO_EXTRA ->
  length (line w) = Z.to_nat (MAX_AUTO_EXTRA * 8) ->
  fd_open w = true ->
  be_quiet = true \/ str_length s + 1 < 256 ->
  exists w', runOnInstruction w (Call callInst) = Running w' /\
    written w' = written w ++ [quoted (take (Z.to_nat MAX_AUTO_EXTRA) s)] /\
    found w' = found w + 1.
Proof.
  intros Hc H1 H2 H3 Hr1 Hr2 Hp Hmax Hmin Hlen Hfd Hq.
  pose proof (second_operand_candidate _ _ _ _ _ _ s Hc eq_refl H1 H2 Hr1 Hr2)
    as Hstep.
  unfold reconcile in Hstep.
  destruct (lengthStep (flagsOf Memcmp) callInst s) as [[[s1 o] a]|] eqn:Hl.
  2:{ unfold lengthStep in Hl. simpl in Hl. rewrite H3 in Hl.
      destruct (kind op2); try discriminate.
      destruct (_ =? _); discriminate. }
  apply lengthStep_string in Hl as [_ Hs1].
  change (terminatorStep (flagsOf Memcmp) s1 o a) with (s1, o) in Hstep.
  simpl. destruct (analyzeCall (valueMap w) callInst) as [m' step].
  simpl in Hstep. subst step.
  assert (H0 : 0 <= str_length s) by (unfold str_length; lia).
  assert (Hlen1 : str_length s <= str_length s1 <= str_length s + 1).
  { destruct a; subst s1; unfold str_length; rewrite ?length_app; simpl; lia. }
  destruct (emit_entry (setValueMap w m') s1 o
              (Z.min (str_length s1) MAX_AUTO_EXTRA))
    as (line' & -> & _); try assumption.
  - unfold diagTerminates. destruct Hq as [-> | Hq]; [reflexivity|].
    apply orb_true_iff. right. apply Z.ltb_lt. lia.
  - right. assert (Hs : Forall (fun c => (N_of_ascii c < 128)%N) s)
      by (eapply Forall_impl; [exact Hp|apply isprint_ascii]).
    destruct a; subst s1; [|exact Hs].
    apply Forall_app. split; [exact Hs|repeat constructor].
  - rewrite clampLen_spec.
    destruct (Z.ltb_spec (Z.min (str_length s1) MAX_AUTO_EXTRA)
                MIN_AUTO_EXTRA); [lia|reflexivity].
  - eexists. split; [reflexivity|]. rewrite written_wrote. simpl.
    split; [|reflexivity]. do 3 f_equal.
    destruct a; subst s1.
    + apply printable_entry_body; try assumption.
      unfold str_length. rewrite length_app. simpl. lia.
    + rewrite substr0_take.
      replace (take (Z.to_nat (Z.min (str_length s) MAX_AUTO_EXTRA)) s)
        with (take (Z.to_nat MAX_AUTO_EXTRA) s).
      * apply filter_isprint_id, Forall_take, Hp.
      * unfold str_length.
        destruct (Z.le_gt_cases (Z.of_nat (length s)) MAX_AUTO_EXTRA).
        -- rewrite Z.min_l by lia. rewrite !take_ge by lia. reflexivity.
        -- rewrite Z.min_r by lia. reflexivity.
Qed.

(** ** A copy and a later comparison *)

Lemma cstr_app_NUL (s : bytes) : cstr (s ++ [NUL]) = cstr s.
Proof.
  induction s as [|c r IH]; simpl; [reflexivity|].
  destruct (Ascii.eqb c NUL); [reflexivity|]. by rewrite IH.
Qed.

Lemma copyString_cases (s : bytes) (op2 : Value) :
  copyString s op2 = s \/ copyString s op2 = s ++ [NUL].
Proof.
  unfold copyString. destruct (kind op2); auto.
  destruct (_ =? _); auto.
Qed.

(** Whether or not the length of the copy took in the terminator, strcmp
    or strcasecmp of an unknown buffer against the destination of the copy
    yields the C string of the copied constant with its terminator. *)
Theorem copy_then_compare_yields_c_string (m : ValueMap)
    (copyInst cmpInst : CallInst) (Callee0 Callee : Function) (f0 : Flags)
    (k : Kind) (dst src op2 Str1P Str2P : Value) (s : bytes) :
  classify copyInst = Some (Callee0, f0) -> isIntMemcpy f0 = true ->
  getArgOperand copyInst 0 = Some dst ->
  getArgOperand copyInst 1 = Some src ->
  getArgOperand copyInst 2 = Some op2 ->
  staticSource dst src = Some s -> s <> [] ->
  str_length s < 2 ^ 64 - 2 ->
  k = Strcmp \/ k = Strcasecmp ->
  classify cmpInst = Some (Callee, flagsOf k) ->
  getArgOperand cmpInst 0 = Some Str1P ->
  getArgOperand cmpInst 1 = Some Str2P ->
  addr Str2P = addr dst -> specResolveStatic Str2P = None ->
  addr Str1P <> addr dst -> specResolves m Str1P = false ->
  (analyzeCall (analyzeCall m copyInst).1 cmpInst).2
  = Candidate (getName Callee) (cstr s ++ [NUL]) (str_length (cstr s) + 1).
Proof.
  intros Hc0 Hf0 Ha0 Ha1 Ha2 Hsrc Hne Hlen Hk Hc H1 H2 Hd Hst2 Hx Hr1.
  rewrite (analyzeCall_copy _ _ _ _ _ _ Hc0 Hf0 Ha0 Ha1), Hsrc, Ha2. simpl.
  set (m1 := <[addr dst := Some (copyString s op2)]> m).
  assert (Hcs : exists c r, copyString s op2 = c :: r).
  { destruct (copyString_cases s op2) as [-> | ->];
      destruct s; [congruence|eauto|congruence|simpl; eauto]. }
  destruct Hcs as (c & r & Hcs).
  assert (Hb2 : specResolve m1 Str2P = Some (copyString s op2)).
  { unfold specResolve, specResolveStatic, binding in *.
    destruct (constantStringInfo Str2P) as [[|c' s']|]; try discriminate;
      rewrite Hst2, Hd; unfold m1; rewrite lookup_insert_eq, Hcs;
      reflexivity. }
  assert (Hb1 : specResolves m1 Str1P = false).
  { unfold specResolves, specResolve, binding in *. unfold m1.
    rewrite lookup_insert_ne by congruence. exact Hr1. }
  assert (Hf : isIntMemcpy (flagsOf k) = false)
    by (destruct Hk as [-> | ->]; reflexivity).
  rewrite (second_operand_candidate m1 _ _ _ _ _ _ Hc Hf H1 H2 Hb1 Hb2).
  rewrite (reconcile_unbounded k cmpInst _ Hk).
  - destruct (copyString_cases s op2) as [-> | ->];
      rewrite ?cstr_app_NUL; reflexivity.
  - destruct (copyString_cases s op2) as [-> | ->];
      unfold str_length in *; rewrite ?length_app; simpl; lia.
Qed.

(** A comparison site never changes what the table binds, whatever it
    finds and however it ends. *)
Theorem comparison_never_rebinds (w : World) (callInst : CallInst)
    (Callee : Function) (f : Flags) (d : positive) :
  classify callInst = Some (Callee, f) -> isIntMemcpy f = false ->
  binding (valueMap (outcomeWorld (runOnInstruction w (Call callInst)))) d
  = binding (valueMap w) d.
Proof.
  intros Hc Hf.
  assert (Hb : binding (analyzeCall (valueMap w) callInst).1 d
               = binding (valueMap w) d).
  { destruct (getArgOperand callInst 0) as [Str1P|] eqn:H1;
      [destruct (getArgOperand callInst 1) as [Str2P|] eqn:H2|].
    - by destruct (analyzeCall_compare (valueMap w) _ _ _ _ _ Hc Hf H1 H2)
        as [-> _].
    - unfold analyzeCall. by rewrite Hc, H1, H2.
    - unfold analyzeCall. by rewrite Hc, H1. }
  simpl. destruct (analyzeCall (valueMap w) callInst) as [m' step].
  simpl in Hb. destruct step as [|name s n|]; simpl; try exact Hb.
  by rewrite emit_valueMap.
Qed.

(** ** The diagnostic print *)

Lemma diagByte_spec (c : ascii) :
  forallb isgraph (diagByte c) = true /\
  (1 <= length (diagByte c) <= 4)%nat /\
  (isgraph c = true -> diagByte c = [c]).
Proof.
  destruct c as [[] [] [] [] [] [] [] []]; vm_compute;
    (split; [reflexivity|split; [lia|]]); first [reflexivity|discriminate].
Qed.

(** The diagnostic print, when its loop ends, shows every byte of the
    candidate in order: a byte from 33 to 126 as itself, any other byte,
    the space included, as a backslash, an x and two hexadecimal digits.
    What it prints holds only bytes from 33 to 126. *)
Theorem diagnostic_text_is_graphic (thestring text : bytes) :
  diagText thestring = Some text ->
  Forall (fun c => isgraph c = true) text /\
  (length thestring <= length text <= 4 * length thestring)%nat /\
  (Forall (fun c => isgraph c = true) thestring -> text = thestring).
Proof.
  unfold diagText. destruct (str_length thestring <? 256); [|discriminate].
  intros [= <-]. induction thestring as [|c r IH]; simpl.
  - repeat split; auto.
  - destruct IH as (Hg & Hl & Hid).
    destruct (diagByte_spec c) as (Hc & Hlc & Hidc).
    split; [|split].
    + apply Forall_app. split; [|exact Hg].
      apply Forall_forall. intros a Ha.
      rewrite forallb_forall in Hc. apply Hc. by apply list_elem_of_In.
    + rewrite length_app. lia.
    + intros Hall. apply Forall_cons in Hall as [Hcg Hr].
      rewrite (Hidc Hcg), (Hid Hr). reflexivity.
Qed.

End Pass.

(** ** The theorems at concrete call sites

    The bounds are those of AFL++'s config.h, [MAX_AUTO_EXTRA] = 32 and
    [MIN_AUTO_EXTRA] = 3; the pass runs quiet, on a platform with signed
    [char]. *)

Lemma C1_witness :
  classify strcmp_x_foo = Some (strcmp_decl, flagsOf Strcmp) /\
  written (outcomeWorld (runOnInstruction 32 3 true true world0
                           (Call strcmp_x_foo))) <> written world0 /\
  xorb (specResolves (valueMap world0) bufX)
       (specResolves (valueMap world0) (literal 3 (lit "foo"))) = true.
Proof.
  assert (Hw : written (outcomeWorld (runOnInstruction 32 3 true true world0
                          (Call strcmp_x_foo))) <> written world0)
    by (vm_compute; discriminate).
  split; [reflexivity|]. split; [exact Hw|].
  apply (C1_exactly_one_operand_resolves 32 3 true true world0 strcmp_x_foo
           strcmp_decl (flagsOf Strcmp) bufX (literal 3 (lit "foo")) []);
    [reflexivity|reflexivity|reflexivity|reflexivity|exact Hw].
Defined.

Lemma C2_witness :
  0 <= 3 /\
  exists n line' data,
    clampLen 32 3 (lit "foo" ++ [NUL]) 4 = Some n /\
    n = Z.min (str_length (lit "foo" ++ [NUL])) 32 /\
    3 <= n <= 32 /\
    str_length (substr0 (lit "foo" ++ [NUL]) n) = n /\
    render true (line world0) (lit "foo" ++ [NUL]) n = Ok (line', data) /\
    written (outcomeWorld (emit 32 3 true true world0 (lit "foo" ++ [NUL]) 4))
    = written world0 ++ [data].
Proof.
  split; [lia|].
  apply (C2_entry_length_within_bounds 32 3 true true world0
           (lit "foo" ++ [NUL]) 4); [lia|].
  vm_compute. discriminate.
Defined.

Lemma C3_witness :
  0 <= 3 < 2 ^ 64 - 1 /\ str_length (lit "abcdef") < 2 ^ 64 - 1 /\
  terminatorStep (flagsOf Strncmp) (lit "abcdef") 3 false = (lit "abcd", 4).
Proof.
  split; [lia|]. split; [reflexivity|].
  apply (C3_terminator_step_by_kind Strncmp (lit "abcdef") 3 false);
    [lia|reflexivity|discriminate].
Defined.

(** [strncmp(x, "abcdef", 3)] from the call to the candidate: the string
    grows by the terminator and is then cut at the effective length 3 + 1;
    the same comparison through memcmp leaves it as it is. *)
Lemma C3_counterexample :
  reconcile (flagsOf Strncmp) strncmp_x_abcdef_3 (lit "abcdef")
    = Some (lit "abcd", 4) /\
  reconcile (flagsOf Memcmp) memcmp_x_abcdef_3 (lit "abcdef")
    = Some (lit "abcdef", 3) /\
  terminatorStep (flagsOf Strncmp) (lit "abcdef") 3 false
    <> (lit "abcdef", 3).
Proof. repeat split; try reflexivity. vm_compute. discriminate. Qed.

(** [memcmp(x, "a\\x01b", 3)]: the line written is ["ab"], not
    ["a\\x01b"]. *)
Lemma C4_witness :
  0 <= 3 <= str_length a01b /\
  (Z.to_nat 3 + 5 <= length stack256)%nat /\
  exists line' data,
    render true stack256 a01b 3 = Ok (line', data) /\
    data = [DQUOTE; "a"%char; "b"%char; DQUOTE; LF].
Proof.
  assert (Hlen : 0 <= 3 <= str_length a01b)
    by (vm_compute; split; discriminate).
  assert (Hroom : (Z.to_nat 3 + 5 <= length stack256)%nat)
    by (vm_compute; lia).
  assert (Hr : exists line' data,
            render true stack256 a01b 3 = Ok (line', data))
    by (vm_compute; eauto).
  split; [exact Hlen|]. split; [exact Hroom|].
  destruct Hr as (line' & data & Hr). exists line', data.
  split; [exact Hr|].
  exact (C4_rendering_drops_unprintable_bytes true stack256 a01b 3 line' data
           Hlen Hroom Hr).
Defined.

(** [strcmp(x, "a b")]: the space, code 32, is written as it is. *)
Lemma space_is_written_verbatim :
  written (outcomeWorld
             (runOnModule 32 3 true true (fun _ => false) stack256
                [define "main"
                   [Call (callTo strcmp_decl [bufX; literal 3 (lit "a b")])]]))
  = [[DQUOTE; "a"%char; " "%char; "b"%char; DQUOTE; LF]].
Proof. vm_compute. reflexivity. Qed.

(** [memcmp(x, "a\x01b", 3)] through the whole pass. *)
Lemma C4_failing_run :
  written (outcomeWorld
             (runOnModule 32 3 true true (fun _ => false) stack256
                [define "main" [Call memcmp_x_a01b]]))
  = [[DQUOTE; "a"%char; "b"%char; DQUOTE; LF]].
Proof. vm_compute. reflexivity. Qed.

(** A memcmp declared with an [i8*] and an [i32*] parameter is classified
    and yields a candidate. *)
Lemma C5_counterexample :
  classify memcmp_mixed_x_foo = Some (memcmp_mixed_decl, flagsOf Memcmp) /\
  params (getFunctionType memcmp_mixed_decl)
    = [Int8PtrTy; PointerTy i32 0; i64] /\
  Int8PtrTy <> PointerTy i32 0 /\
  (analyzeCall ∅ memcmp_mixed_x_foo).2 = Candidate "memcmp" (lit "foo") 3.
Proof. repeat split; try reflexivity. discriminate. Qed.

Lemma C6_witness :
  exists w',
    runOnInstructions 32 3 true true world0
      [copy arrD (literal 3 (lit "AAA")) 4; copy arrD (literal 4 (lit "ZZ")) 3]
    = Running w' /\
    binding (valueMap w') (addr arrD) = Some (lit "ZZ" ++ [NUL]) /\
    specResolve (valueMap w') arrD = Some (lit "ZZ" ++ [NUL]) /\
    (analyzeCall (valueMap w') strcmp_x_d).2
    = Candidate "strcmp" (lit "ZZ" ++ [NUL]) 3.
Proof.
  assert (Hr : exists w',
    runOnInstructions 32 3 true true world0
      [copy arrD (literal 3 (lit "AAA")) 4; copy arrD (literal 4 (lit "ZZ")) 3]
    = Running w') by (vm_compute; eauto).
  destruct Hr as (w' & Hr). exists w'. split; [exact Hr|].
  destruct (C6_latest_copy_wins 32 3 true true world0 w' _ (addr arrD) Hr)
    as [Hb Hres].
  assert (Hd : specResolve (valueMap w') arrD = Some (lit "ZZ" ++ [NUL]))
    by (apply Hres; reflexivity).
  split; [exact Hb|]. split; [exact Hd|].
  destruct (analyzeCall_compare (valueMap w') strcmp_x_d strcmp_decl
              (flagsOf Strcmp) bufX arrD) as [_ ->]; try reflexivity.
  unfold specResolves. rewrite Hd.
  replace (specResolve (valueMap w') bufX) with (@None bytes); [reflexivity|].
  vm_compute in Hr. injection Hr as <-. reflexivity.
Defined.

(** [char d[] = "ID01";] binds [d] to the literal with its terminator;
    [memcpy("abc", g, 6)] binds the literal to itself and not to the
    initializer of [g]. *)
Lemma C7_witness :
  specResolveStatic (literal 3 (lit "ID01")) = Some (lit "ID01") /\
  runOnInstruction 32 3 true true world0 (Call copy_ID01) =
  Running (setValueMap world0
             (<[addr arrD := Some (lit "ID01" ++ [NUL])]> (valueMap world0))) /\
  specResolveStatic arrG = Some (lit "wxyz" ++ [NUL]) /\
  runOnInstruction 32 3 true true world0 (Call copy_abc_g) =
  Running (setValueMap world0
             (<[addr (literal 3 (lit "abc")) := Some (lit "abc")]>
                (valueMap world0))).
Proof.
  split; [reflexivity|]. split.
  - destruct (C7_copy_site_saves_source_unless_stale 32 3 true true world0
                copy_ID01 memcpy_decl (flagsOf IntMemcpy)) as [H _];
      [reflexivity|reflexivity|].
    apply (H arrD (literal 3 (lit "ID01")) (constInt 4 5) (lit "ID01") 5);
      reflexivity.
  - split; [reflexivity|].
    destruct (C7_copy_site_saves_source_unless_stale 32 3 true true world0
                copy_abc_g memcpy_decl (flagsOf IntMemcpy)) as [H _];
      [reflexivity|reflexivity|].
    apply (H (literal 3 (lit "abc")) arrG (constInt 4 6)
             (lit "wxyz" ++ [NUL]) 6); reflexivity.
Defined.

(** [memcpy("abc", g, 6)] with [static char g[] = "wxyz";]: the source
    resolves by rule 2 to the five bytes of the initializer, the length is
    six, and the table binds the destination to "abc", not to the
    initializer followed by a zero byte. *)
Lemma C7_failing_run :
  specResolveStatic arrG = Some (lit "wxyz" ++ [NUL]) /\
  kind (constInt 4 6) = ConstantInt (str_length (lit "wxyz" ++ [NUL]) + 1) /\
  binding
    (valueMap (outcomeWorld
       (runOnModule 32 3 true true (fun _ => false) stack256
          [define "main" [Call copy_abc_g]])))
    (addr (literal 3 (lit "abc")))
  = Some (lit "abc") /\
  lit "abc" <> (lit "wxyz" ++ [NUL]) ++ [NUL].
Proof. repeat split; try reflexivity. discriminate. Qed.


(** With the descriptor closed after the first function, an entry found in
    the second one ends the run at the PFATAL of line 471. *)
Lemma second_function_entry_is_fatal :
  exists w',
    runOnModule 32 3 true true (fun _ => false) stack256
      [define "f" [Call strcmp_x_foo]; define "g" [Call strcmp_x_foo]]
    = Fatal w' /\
    written w' = [[DQUOTE; "f"%char; "o"%char; "o"%char; DQUOTE; LF]].
Proof. vm_compute. eexists. split; reflexivity. Qed.

Lemma C9_witness :
  constantStringInfo (emptyLiteral 3) = Some [] /\
  literalStep [] (emptyLiteral 3) = ([], false, []) /\
  specResolves ∅ (emptyLiteral 3) = false /\
  (analyzeCall ∅ strcmp_x_empty).2 = Skip.
Proof.
  destruct (C9_empty_literal_unresolved 32 3 ∅ strcmp_x_empty strcmp_decl
              (flagsOf Strcmp) bufX (emptyLiteral 3) (emptyLiteral 3))
    as (H1 & H2 & _); try reflexivity.
  destruct H2 as [Hr Hs]; [right; reflexivity|reflexivity|reflexivity|].
  split; [reflexivity|]. split; [apply H1|]. split; [exact Hr|].
  apply Hs; reflexivity.
Defined.

Lemma C10_witness :
  0 < 32 /\ length stack256 = Z.to_nat (32 * 8) /\
  clampLen 32 3 (lit "foo" ++ [NUL]) 4 = Some 4 /\
  render true stack256 (lit "foo" ++ [NUL]) 4 <> Fault LineOverrun /\
  render true stack256 (lit "foo" ++ [NUL]) 4 <> Fault LineOverread.
Proof.
  split; [lia|]. split; [reflexivity|]. split; [reflexivity|].
  destruct (C10_line_buffer_never_overrun 32 3 true stack256
              (lit "foo" ++ [NUL]) 4 4) as (H1 & H2 & _);
    [lia|reflexivity|reflexivity|].
  split; assumption.
Defined.

(** ** The further properties at concrete call sites *)

Lemma classify_accepts_checked_prototype_witness :
  signatureOf Strcmp (getFunctionType strcmp_decl) /\
  classify strcmp_x_foo = Some (strcmp_decl, flagsOf Strcmp).
Proof.
  assert (Hs : signatureOf Strcmp (getFunctionType strcmp_decl))
    by (split; reflexivity).
  split; [exact Hs|].
  apply (classify_accepts_checked_prototype strcmp_x_foo strcmp_decl Strcmp);
    [reflexivity|reflexivity|reflexivity|exact Hs].
Defined.

(** The bytes after the first zero byte are dropped. *)
Lemma unbounded_candidate_is_c_string_witness :
  str_length (lit "foo" ++ NUL :: lit "bar") < 2 ^ 64 - 1 /\
  reconcile (flagsOf Strcmp) strcmp_x_foo (lit "foo" ++ NUL :: lit "bar")
  = Some (lit "foo" ++ [NUL], 4).
Proof.
  split; [reflexivity|].
  apply (unbounded_candidate_is_c_string Strcmp strcmp_x_foo
           (lit "foo" ++ NUL :: lit "bar")); [left|]; reflexivity.
Defined.

Lemma string_candidate_prefix_of_c_string_witness :
  reconcile (flagsOf Strncmp) strncmp_x_abcdef_3 (lit "abcdef")
  = Some (lit "abcd", 4) /\
  lit "abcd" `prefix_of` cstr (lit "abcdef") ++ [NUL] /\
  4 = str_length (lit "abcd").
Proof.
  split; [reflexivity|].
  apply (string_candidate_prefix_of_c_string Strncmp strncmp_x_abcdef_3
           (lit "abcdef") (lit "abcd") 4); [discriminate|reflexivity..].
Defined.

Lemma bounded_candidate_one_byte_more_witness :
  0 <= 3 < 2 ^ 64 - 1 /\
  reconcile (flagsOf Strncmp) strncmp_x_abcdef_3 (lit "abcdef")
  = Some (lit "abcd", 4).
Proof.
  split; [lia|].
  apply (bounded_candidate_one_byte_more Strncmp strncmp_x_abcdef_3
           (constInt 4 3) (lit "abcdef") 3);
    [by left|reflexivity|reflexivity|lia|reflexivity|].
  intros H. repeat (apply elem_of_cons in H as [H|H]; [discriminate|]).
  by apply elem_of_nil in H.
Defined.

Lemma bounded_by_size_max_is_empty_witness :
  wrap64 (2 ^ 64 - 1) = 2 ^ 64 - 1 /\
  reconcile (flagsOf Strncmp) strncmp_x_abc_max (lit "abc") = Some ([], 0) /\
  emit 32 3 true true world0 [] 0 = Running world0.
Proof.
  split; [reflexivity|].
  destruct (bounded_by_size_max_is_empty 32 3 true true Strncmp
              strncmp_x_abc_max (constInt 4 (2 ^ 64 - 1)) (lit "abc")
              (2 ^ 64 - 1)) as [Hr He];
    [by left|reflexivity|reflexivity|reflexivity|reflexivity|].
  split; [exact Hr|]. apply He. lia.
Defined.

Lemma literal_first_operand_is_skipped_witness :
  classify strcmp_foo_x = Some (strcmp_decl, flagsOf Strcmp) /\
  (analyzeCall (valueMap world0) strcmp_foo_x).2 = Skip.
Proof.
  split; [reflexivity|].
  apply (literal_first_operand_is_skipped 32 3 true true world0 strcmp_foo_x
           strcmp_decl (flagsOf Strcmp) (literal 3 (lit "foo")) bufX
           "f"%char (lit "oo")); reflexivity.
Defined.


Lemma long_literal_hangs_when_not_quiet_witness :
  255 <= str_length (replicate 255 "A"%char) < 2 ^ 64 - 1 /\
  exists w',
    runOnInstruction 32 3 false true world0 (Call strcmp_x_long) = Hung w' /\
    trace w' = trace world0 /\ found w' = found world0.
Proof.
  assert (Hl : 255 <= str_length (replicate 255 "A"%char) < 2 ^ 64 - 1)
    by (by vm_compute).
  split; [exact Hl|].
  apply (long_literal_hangs_when_not_quiet 32 3 false true world0
           strcmp_x_long strcmp_decl Strcmp bufX
           (literal 3 (replicate 255 "A"%char)) (replicate 255 "A"%char));
    try reflexivity.
  - by left.
  - intros H. apply elem_of_replicate in H as [H _]. discriminate.
  - exact Hl.
Defined.

(** Three bytes are compared, six are written. *)
Lemma memcmp_writes_whole_literal_witness :
  getArgOperand memcmp_x_abcdef_3 2 = Some (constInt 4 3) /\
  exists w',
    runOnInstruction 32 3 true true world0 (Call memcmp_x_abcdef_3)
    = Running w' /\
    written w' = written world0 ++ [quoted (lit "abcdef")] /\
    found w' = found world0 + 1.
Proof.
  split; [reflexivity|].
  apply (memcmp_writes_whole_literal 32 3 true true world0 memcmp_x_abcdef_3
           memcmp_decl bufX (literal 3 (lit "abcdef")) (constInt 4 3)
           (lit "abcdef")); try reflexivity.
  - repeat constructor.
  - by vm_compute.
  - by left.
Defined.

Lemma summary_reports_lines_written_witness :
  exists w',
    runOnModule 32 3 false true (fun _ => false) stack256
      [define "main" [Call strcmp_x_foo]] = Running w' /\
    summary false w' = Wrote 1.
Proof.
  assert (Hr : exists w',
    runOnModule 32 3 false true (fun _ => false) stack256
      [define "main" [Call strcmp_x_foo]] = Running w') by (vm_compute; eauto).
  destruct Hr as (w' & Hr). exists w'. split; [exact Hr|].
  assert (Hw : written w' = [quoted (lit "foo")]).
  { vm_compute in Hr. injection Hr as <-. reflexivity. }
  pose proof (summary_reports_lines_written 32 3 false true (fun _ => false)
                _ stack256 w' Hr) as H.
  rewrite Hw in H. apply H. reflexivity.
Defined.

Lemma high_byte_overflows_tmp_witness :
  clampLen 32 3 png 4 = Some 4 /\
  emit 32 3 true true world0 png 4 = Undefined TmpOverrun world0.
Proof.
  split; [reflexivity|].
  apply (high_byte_overflows_tmp 32 3 true true world0 png 4 4);
    try reflexivity.
  apply Exists_cons_hd. by vm_compute.
Defined.

Lemma no_undefined_behaviour_with_unsigned_char_witness :
  length stack256 = Z.to_nat (32 * 8) /\
  runOnModule 32 3 true false (fun _ => false) stack256
    [define "main" [Call memcmp_x_png]]
  <> Undefined TmpOverrun world0.
Proof.
  split; [reflexivity|].
  apply (no_undefined_behaviour_with_unsigned_char 32 3 true false
           (fun _ => false)); [reflexivity|lia|reflexivity].
Defined.

Lemma every_line_is_quoted_printable_witness :
  defined (runOnModule 32 3 true true (fun _ => false) stack256
             [define "main" [Call strcmp_x_foo; Call memcmp_x_a01b]]) = true /\
  Forall (entryLine 32)
    (written (outcomeWorld
       (runOnModule 32 3 true true (fun _ => false) stack256
          [define "main" [Call strcmp_x_foo; Call memcmp_x_a01b]]))).
Proof.
  assert (Hd : defined (runOnModule 32 3 true true (fun _ => false) stack256
             [define "main" [Call strcmp_x_foo; Call memcmp_x_a01b]]) = true)
    by (vm_compute; reflexivity).
  split; [exact Hd|].
  apply (every_line_is_quoted_printable 32 3 true true (fun _ => false));
    [lia|reflexivity|exact Hd].
Defined.

Lemma copy_then_compare_yields_c_string_witness :
  staticSource arrD (literal 3 (lit "ID01")) = Some (lit "ID01") /\
  (analyzeCall (analyzeCall ∅ copy_ID01).1 strcmp_x_d).2
  = Candidate "strcmp" (lit "ID01" ++ [NUL]) 5.
Proof.
  split; [reflexivity|].
  apply (copy_then_compare_yields_c_string ∅ copy_ID01 strcmp_x_d memcpy_decl
           strcmp_decl (flagsOf IntMemcpy) Strcmp arrD
           (literal 3 (lit "ID01")) (constInt 4 5) bufX arrD (lit "ID01"));
    try reflexivity; try discriminate.
  by left.
Defined.

Lemma comparison_never_rebinds_witness :
  classify strcmp_x_d = Some (strcmp_decl, flagsOf Strcmp) /\
  binding (valueMap (outcomeWorld
             (runOnInstruction 32 3 true true world0 (Call strcmp_x_d))))
    (addr arrD)
  = binding (valueMap world0) (addr arrD).
Proof.
  split; [reflexivity|].
  apply (comparison_never_rebinds 32 3 true true world0 strcmp_x_d
           strcmp_decl (flagsOf Strcmp)); reflexivity.
Defined.

(** The space is shown as an escape. *)
Lemma diagnostic_text_is_graphic_witness :
  diagText (lit "a b") = Some (lit "a\x20b") /\
  Forall (fun c => isgraph c = true) (lit "a\x20b").
Proof.
  assert (H : diagText (lit "a b") = Some (lit "a\x20b")) by reflexivity.
  split; [exact H|].
  apply (diagnostic_text_is_graphic (lit "a b") (lit "a\x20b") H).
Defined.

(** A binding made in one function is there after the next one. *)
Lemma table_persists_across_functions_witness :
  exists w',
    runOnFunctions 32 3 true true (fun _ => false) world0
      [define "f" [Call copy_ID01]; define "g" [OtherInstruction]]
    = Running w' /\
    binding (valueMap w') (addr arrD) = Some (lit "ID01" ++ [NUL]).
Proof.
  assert (Hr : exists w',
    runOnFunctions 32 3 true true (fun _ => false) world0
      [define "f" [Call copy_ID01]; define "g" [OtherInstruction]]
    = Running w') by (vm_compute; eauto).
  destruct Hr as (w' & Hr). exists w'. split; [exact Hr|].
  exact (table_persists_across_functions 32 3 true true (fun _ => false)
           _ world0 w' (addr arrD) Hr).
Defined.
